(** * MegaScraper: a shallow embedding of [mega_scraper.py]

    The crawler object of [mega_scraper.py] is modelled as a record of its
    attributes; the two entry points [scrape] and [download] are functions
    on a world made of that object, the file system and a log of the calls
    made to the collaborators (page fetch, image fetch and decode, directory
    creation, image save).  Python sets are [gset string]; the arbitrary
    element removed by [set.pop] is picked by a choice function of the
    environment, so every statement below holds for every pop order.  A
    failed fetch or decode is an exception that leaves the object as it was
    when it was raised.  The progress lines printed on the console are left
    out, and the file system never fails. *)

From stdpp Require Import base gmap sets list strings.
From Stdlib Require Import ZArith Ascii DecimalString.
From Stdlib Require DecimalZ DecimalPos.

Open Scope Z_scope.

(** ** Strings as Python uses them *)

Module Py.

(** [s.startswith(p)] *)
Definition startswith (s p : string) : bool := String.prefix p s.

(** [s.endswith(suf)] : some tail of [s] is [suf]. *)
Fixpoint endswith (s suf : string) : bool :=
  if String.eqb s suf then true
  else match s with
       | EmptyString => false
       | String _ s' => endswith s' suf
       end.

(** [str(n)] for an integer. *)
Definition str (n : Z) : string := NilZero.string_of_int (Z.to_int n).

Fixpoint zeros (n : nat) : string :=
  match n with
  | O => EmptyString
  | S n => String "0" (zeros n)
  end.

(** [s.zfill(width)] : zeros are put in front (after a leading sign, if
    any) until the length is [width]; a longer string is left as it is. *)
Definition zfill (width : nat) (s : string) : string :=
  let pad := zeros (width - String.length s) in
  match s with
  | String c s' =>
      if Ascii.eqb c "+" || Ascii.eqb c "-" then String c (pad +:+ s')
      else pad +:+ s
  | EmptyString => pad
  end.

(** ['/' in s] *)
Fixpoint has_slash (s : string) : bool :=
  match s with
  | EmptyString => false
  | String c s' => Ascii.eqb c "/"%char || has_slash s'
  end.

(** [s.split('/')[-1]] : what follows the last slash (all of [s] when it
    has none). *)
Fixpoint last_segment (s : string) : string :=
  match s with
  | EmptyString => EmptyString
  | String c s' =>
      if has_slash s' then last_segment s'
      else if Ascii.eqb c "/"%char then s' else s
  end.

(** [os.path.join(a, b)] on a POSIX system, for two components. *)
Definition path_join (a b : string) : string :=
  if startswith b "/" then b
  else if String.eqb a "" || endswith a "/" then a +:+ b
  else a +:+ "/" +:+ b.

(** An attribute value in a condition: [None] and the empty string are
    false. *)
Definition truthy (o : option string) : option string :=
  match o with
  | Some s => if String.eqb s "" then None else Some s
  | None => None
  end.

(** [s.pop()] on a set: an arbitrary element, here the one of index
    [k] (modulo the size) in the enumeration of the set; [None] stands
    for the [KeyError] of an empty set. *)
Definition set_pop (k : nat) (s : gset string) : option string :=
  elements s !! (k `mod` length (elements s))%nat.

End Py.

(** ** Data model *)

(** The two fields of [urllib.parse.urlparse]'s result that the code reads. *)
Record ParseResult := { scheme : string; netloc : string }.

(** A parsed page: its tags in document order, each with its attributes. *)
Record Tag := { tag_name : string; attrs : gmap string string }.
Definition BeautifulSoup := list Tag.

Definition find_all (soup : BeautifulSoup) (name : string) : list Tag :=
  filter (λ t, tag_name t = name) soup.

(** [element.get(attr)] *)
Definition get (element : Tag) (attr : string) : option string :=
  attrs element !! attr.

(** A decoded image, as far as the code looks at it. *)
Record Image := { width : Z; height : Z }.

Inductive OutputStructure := flat | grouped.
Inductive OutputNaming := keep | numerical.

(** Calls to the collaborators, in the order they are made. *)
Inductive event :=
| EvGet (url : string)               (* requests.get(url) for a page *)
| EvOpen (image_url : string)        (* PIL.Image.open(requests.get(image_url).raw) *)
| EvMakedirs (path : string)         (* os.makedirs(path) *)
| EvSave (image_url path : string).  (* image.save(path) *)

Inductive exn :=
| AssertionError
| KeyError
| FetchError (url : string)          (* the page fetch failed *)
| ImageError (image_url : string).   (* the image fetch or decode failed *)

Inductive result (A : Type) :=
| Ok (a : A)
| Raise (e : exn).
Arguments Ok {A} a.
Arguments Raise {A} e.

(** The collaborators: URL parsing, regex search, the page graph served by
    the site, the images it serves, and the element [set.pop] removes
    (which may depend on everything that happened before). *)
Record Env := {
  urlparse : string → ParseResult;
  re_search : string → string → bool;
  requests_get : string → option BeautifulSoup;
  image_open : string → option Image;
  choice : list event → nat
}.

(** The attributes of a [MegaScraper] object that [__init__] sets once and
    nothing changes afterwards. *)
Record Config := {
  _seed : string;
  _parsed_seed : ParseResult;
  _root : string;
  _regex_pages : string;
  _regex_images : string;
  _min_width : Z;
  _min_height : Z;
  _output_folderpath : string;
  _output_structure : OutputStructure;
  _output_naming : OutputNaming;
  _images_per_folder : Z;
  _folder_initial_num : Z
}.

(** A [MegaScraper] object: the configuration and the five attributes the
    methods update. *)
Record MegaScraper := {
  cfg :> Config;
  _explored : gset string;
  _unexplored : gset string;
  _images_urls : gset string;
  _downloaded : gset string;
  _downloaded_idx : Z
}.

Definition with_explored (self : MegaScraper) (v : gset string) : MegaScraper :=
  {| cfg := cfg self; _explored := v; _unexplored := _unexplored self;
     _images_urls := _images_urls self; _downloaded := _downloaded self;
     _downloaded_idx := _downloaded_idx self |}.

Definition with_unexplored (self : MegaScraper) (v : gset string) : MegaScraper :=
  {| cfg := cfg self; _explored := _explored self; _unexplored := v;
     _images_urls := _images_urls self; _downloaded := _downloaded self;
     _downloaded_idx := _downloaded_idx self |}.

Definition with_images_urls (self : MegaScraper) (v : gset string) : MegaScraper :=
  {| cfg := cfg self; _explored := _explored self; _unexplored := _unexplored self;
     _images_urls := v; _downloaded := _downloaded self;
     _downloaded_idx := _downloaded_idx self |}.

Definition with_downloaded (self : MegaScraper) (v : gset string) : MegaScraper :=
  {| cfg := cfg self; _explored := _explored self; _unexplored := _unexplored self;
     _images_urls := _images_urls self; _downloaded := v;
     _downloaded_idx := _downloaded_idx self |}.

Definition with_downloaded_idx (self : MegaScraper) (v : Z) : MegaScraper :=
  {| cfg := cfg self; _explored := _explored self; _unexplored := _unexplored self;
     _images_urls := _images_urls self; _downloaded := _downloaded self;
     _downloaded_idx := v |}.

(** The object, the paths that exist on disk, and the calls made so far. *)
Record World := {
  self : MegaScraper;
  fs : gset string;
  log : list event
}.

Definition with_self (w : World) (s : MegaScraper) : World :=
  {| self := s; fs := fs w; log := log w |}.

(** [os.path.exists] *)
Definition path_exists (w : World) (path : string) : bool :=
  bool_decide (path ∈ fs w).

(** [os.makedirs(path)] *)
Definition makedirs (w : World) (path : string) : World :=
  {| self := self w; fs := {[path]} ∪ fs w; log := log w ++ [EvMakedirs path] |}.

(** [image.save(path)] for the image opened from [image_url] *)
Definition image_save (w : World) (image_url path : string) : World :=
  {| self := self w; fs := {[path]} ∪ fs w; log := log w ++ [EvSave image_url path] |}.

Definition log_event (w : World) (e : event) : World :=
  {| self := self w; fs := fs w; log := log w ++ [e] |}.

(** ** The methods *)

Section Methods.

Variable E : Env.

(** The assignments of [MegaScraper.__init__]. *)
Definition construct
    (seed regex_pages regex_images : string) (min_width min_height : Z)
    (output_folderpath : string) (output_structure : OutputStructure)
    (output_naming : OutputNaming) (images_per_folder folder_initial_num : Z)
    : MegaScraper :=
  let parsed_seed := urlparse E seed in
  {| cfg := {| _seed := seed;
               _parsed_seed := parsed_seed;
               _root := scheme parsed_seed +:+ "://" +:+ netloc parsed_seed;
               _regex_pages := regex_pages;
               _regex_images := regex_images;
               _min_width := min_width;
               _min_height := min_height;
               _output_folderpath := output_folderpath;
               _output_structure := output_structure;
               _output_naming := output_naming;
               _images_per_folder := images_per_folder;
               _folder_initial_num := folder_initial_num |};
     _explored := ∅;
     _unexplored := {[seed]};
     _images_urls := ∅;
     _downloaded := ∅;
     _downloaded_idx := 1 |}.

(** [MegaScraper.__init__]: the four assertions, then the assignments.
    The membership assertions on [output_structure] and [output_naming]
    hold by typing. *)
Definition __init__
    (seed regex_pages regex_images : string) (min_width min_height : Z)
    (output_folderpath : string) (output_structure : OutputStructure)
    (output_naming : OutputNaming) (images_per_folder folder_initial_num : Z)
    : result MegaScraper :=
  if negb (0 <? images_per_folder) then Raise AssertionError
  else if negb (0 <? folder_initial_num) then Raise AssertionError
  else Ok (construct seed regex_pages regex_images min_width min_height
             output_folderpath output_structure output_naming
             images_per_folder folder_initial_num).

(** The body of the [for] loop of [_extract_unexplored_pages]. *)
Definition add_unexplored_page (self : MegaScraper)
    (unexplored_pages : gset string) (element : Tag) : gset string :=
  match Py.truthy (get element "href") with
  | Some href =>
      let href := if Py.startswith href "/" then _root self +:+ href else href in
      let href_netloc := netloc (urlparse E href) in
      if bool_decide (href ∉ _explored self)
         && String.eqb href_netloc (netloc (_parsed_seed self))
      then unexplored_pages ∪ {[href]}
      else unexplored_pages
  | None => unexplored_pages
  end.

Definition _extract_unexplored_pages (self : MegaScraper) (soup : BeautifulSoup)
    : gset string :=
  foldl (add_unexplored_page self) ∅ (find_all soup "a").

(** The body of the [for] loop of [_extract_images_urls]. *)
Definition add_image_url (self : MegaScraper)
    (images_urls : gset string) (element : Tag) : gset string :=
  match Py.truthy (get element "src") with
  | Some src =>
      if negb (Py.endswith src ".gif") then
        let src := if Py.startswith src "/" then _root self +:+ src else src in
        if re_search E (_regex_images self) src
        then images_urls ∪ {[src]}
        else images_urls
      else images_urls
  | None => images_urls
  end.

Definition _extract_images_urls (self : MegaScraper) (soup : BeautifulSoup)
    : gset string :=
  foldl (add_image_url self) ∅ (find_all soup "img").

(** One turn of the [while] loop of [scrape], entered with a non-empty
    [_unexplored]; [images_urls] is the local accumulator. *)
Definition scrape_iteration (w : World) (images_urls : gset string)
    : World * result (gset string) :=
  match Py.set_pop (choice E (log w)) (_unexplored (self w)) with
  | None => (w, Raise KeyError)
  | Some url =>
      let w := with_self w (with_unexplored (self w) (_unexplored (self w) ∖ {[url]})) in
      let w := log_event w (EvGet url) in
      match requests_get E url with
      | None => (w, Raise (FetchError url))
      | Some soup =>
          let w := with_self w (with_unexplored (self w)
                     (_unexplored (self w) ∪ _extract_unexplored_pages (self w) soup)) in
          let images_urls :=
            if re_search E (_regex_pages (self w)) url
            then images_urls ∪ _extract_images_urls (self w) soup
            else images_urls in
          let w := with_self w (with_explored (self w) (_explored (self w) ∪ {[url]})) in
          (w, Ok images_urls)
      end
  end.

(** The [while] loop of [scrape]; [remaining] is [max_pages - num_pages],
    so that the [break] on [num_pages == max_pages] is the case [O]. *)
Fixpoint scrape_loop (remaining : nat) (w : World) (images_urls : gset string)
    : World * result (gset string) :=
  match remaining with
  | O => (w, Ok images_urls)
  | S remaining =>
      if bool_decide (_unexplored (self w) = ∅) then (w, Ok images_urls)
      else match scrape_iteration w images_urls with
           | (w, Ok images_urls) => scrape_loop remaining w images_urls
           | (w, Raise e) => (w, Raise e)
           end
  end.

Definition scrape (max_pages : Z) (w : World) : World * result (gset string) :=
  if negb (1 <=? max_pages) then (w, Raise AssertionError)
  else match scrape_loop (Z.to_nat max_pages) w ∅ with
       | (w, Ok images_urls) =>
           let new_images_urls := images_urls ∖ _images_urls (self w) in
           let w := with_self w (with_images_urls (self w)
                      (_images_urls (self w) ∪ images_urls)) in
           (w, Ok new_images_urls)
       | (w, Raise e) => (w, Raise e)
       end.

(** The name given to the image about to be saved. *)
Definition image_filename (self : MegaScraper) (image_url : string) : string :=
  match _output_naming self with
  | keep => Py.last_segment image_url
  | numerical => Py.str (_downloaded_idx self) +:+ ".jpg"
  end.

(** The sub-folder of the image about to be saved, in the grouped layout.
    The source divides with [/] and truncates with [int]; the float
    quotient is exact below 2^53 images, and the truncation is [Z.quot]. *)
Definition image_foldername (self : MegaScraper) : string :=
  Py.zfill 4 (Py.str (Z.quot (_downloaded_idx self - 1) (_images_per_folder self)
                      + _folder_initial_num self)).

(** The body of the [for] loop of [download] from the fetch of the popped
    [image_url] on. *)
Definition download_image (w : World) (image_url : string) : World * result unit :=
  let w := log_event w (EvOpen image_url) in
  match image_open E image_url with
  | None => (w, Raise (ImageError image_url))
  | Some image =>
      let w := with_self w (with_downloaded (self w) (_downloaded (self w) ∪ {[image_url]})) in
      if (_min_width (self w) <=? width image) && (_min_height (self w) <=? height image)
      then
        let image_filename := image_filename (self w) image_url in
        let '(w, image_filepath) :=
          match _output_structure (self w) with
          | flat => (w, Py.path_join (_output_folderpath (self w)) image_filename)
          | grouped =>
              let image_folderpath :=
                Py.path_join (_output_folderpath (self w)) (image_foldername (self w)) in
              let w := if path_exists w image_folderpath then w
                       else makedirs w image_folderpath in
              (w, Py.path_join image_folderpath image_filename)
          end in
        let w := image_save w image_url image_filepath in
        let w := with_self w (with_downloaded_idx (self w) (_downloaded_idx (self w) + 1)) in
        (w, Ok tt)
      else (w, Ok tt)
  end.

(** The [for _ in range(how_many)] loop of [download]. *)
Fixpoint download_loop (remaining : nat) (w : World) : World * result unit :=
  match remaining with
  | O => (w, Ok tt)
  | S remaining =>
      let images_to_download := _images_urls (self w) ∖ _downloaded (self w) in
      if bool_decide (images_to_download = ∅) then (w, Ok tt)
      else match Py.set_pop (choice E (log w)) images_to_download with
           | None => (w, Raise KeyError)
           | Some image_url =>
               match download_image w image_url with
               | (w, Ok _) => download_loop remaining w
               | (w, Raise e) => (w, Raise e)
               end
           end
  end.

Definition download (how_many : Z) (w : World) : World * result unit :=
  let w := if path_exists w (_output_folderpath (self w)) then w
           else makedirs w (_output_folderpath (self w)) in
  download_loop (Z.to_nat how_many) w.

(** *** Sequences of calls on one object *)

Inductive call :=
| Scrape (max_pages : Z)
| Download (how_many : Z).

Inductive outcome :=
| Scraped (r : result (gset string))
| Downloaded (r : result unit).

Definition run_call (c : call) (w : World) : World * outcome :=
  match c with
  | Scrape max_pages => let '(w, r) := scrape max_pages w in (w, Scraped r)
  | Download how_many => let '(w, r) := download how_many w in (w, Downloaded r)
  end.

(** The caller makes the calls one after the other on the same object; a
    call that raises leaves the object as it was at the raise. *)
Fixpoint run_calls (cs : list call) (w : World) : World * list outcome :=
  match cs with
  | [] => (w, [])
  | c :: cs =>
      let '(w, o) := run_call c w in
      let '(w, os) := run_calls cs w in
      (w, o :: os)
  end.

(** *** The command line *)

(** What [parse_args] returns: the options after [argparse] has converted
    them ([type=int], [choices=...]).  The parsing of the command line
    itself belongs to [argparse] and is not modelled. *)
Record Namespace := {
  seed : string;
  regex_pages : string;
  regex_images : string;
  min_width : Z;
  min_height : Z;
  output_folderpath : string;
  output_structure : OutputStructure;
  output_naming : OutputNaming;
  images_per_folder : Z;
  folder_initial_num : Z;
  max_pages : Z;
  how_many : Z
}.

Definition _DEFAULT_REGEX_PAGES : string := "".
Definition _DEFAULT_REGEX_IMAGES : string := "".
Definition _DEFAULT_MIN_WIDTH : Z := 0.
Definition _DEFAULT_MIN_HEIGHT : Z := 0.
Definition _DEFAULT_OUTPUT_FOLDERPATH : string := "scraped".
Definition _DEFAULT_OUTPUT_STRUCTURE : OutputStructure := flat.
Definition _DEFAULT_OUTPUT_NAMING : OutputNaming := keep.
Definition _DEFAULT_IMAGES_PER_FOLDER : Z := 100.
Definition _DEFAULT_FOLDER_INITIAL_NUM : Z := 1.
Definition _DEFAULT_MAX_PAGES : Z := 99999.
Definition _DEFAULT_HOW_MANY : Z := 99999.

(** The options [parse_args] returns when the command line gives the
    required [--seed] and nothing else: every other option has its
    [default]. *)
Definition default_args (s : string) : Namespace :=
  {| seed := s;
     regex_pages := _DEFAULT_REGEX_PAGES;
     regex_images := _DEFAULT_REGEX_IMAGES;
     min_width := _DEFAULT_MIN_WIDTH;
     min_height := _DEFAULT_MIN_HEIGHT;
     output_folderpath := _DEFAULT_OUTPUT_FOLDERPATH;
     output_structure := _DEFAULT_OUTPUT_STRUCTURE;
     output_naming := _DEFAULT_OUTPUT_NAMING;
     images_per_folder := _DEFAULT_IMAGES_PER_FOLDER;
     folder_initial_num := _DEFAULT_FOLDER_INITIAL_NUM;
     max_pages := _DEFAULT_MAX_PAGES;
     how_many := _DEFAULT_HOW_MANY |}.

(** [main], from the options on: the object is made, [scrape] is called
    and then [download]; an exception ends the program where it is
    raised.  The result is the disk and the calls made to the
    collaborators when the program ends, and how it ended. *)
Definition main (args : Namespace) (disk : gset string)
    : gset string * list event * result unit :=
  match __init__ (seed args) (regex_pages args) (regex_images args)
          (min_width args) (min_height args) (output_folderpath args)
          (output_structure args) (output_naming args)
          (images_per_folder args) (folder_initial_num args) with
  | Raise e => (disk, [], Raise e)
  | Ok scraper =>
      let w := {| self := scraper; fs := disk; log := [] |} in
      match scrape (max_pages args) w with
      | (w, Raise e) => (fs w, log w, Raise e)
      | (w, Ok _) =>
          let '(w, r) := download (how_many args) w in
          (fs w, log w, r)
      end
  end.

End Methods.

(** ** A concrete environment

    A model of the collaborators to run the methods on small sites: the
    part of [urllib.parse.urlsplit] that finds the scheme and the network
    location, a regex search for patterns without metacharacters, and a
    site given as a finite map from URLs to pages. *)

Module Demo.

Definition is_alpha (c : ascii) : bool :=
  let n := nat_of_ascii c in
  ((65 <=? n) && (n <=? 90) || (97 <=? n) && (n <=? 122))%nat.

(** The characters [urlsplit] allows in a scheme. *)
Definition is_scheme_char (c : ascii) : bool :=
  let n := nat_of_ascii c in
  (is_alpha c || (48 <=? n) && (n <=? 57)
   || Ascii.eqb c "+" || Ascii.eqb c "-" || Ascii.eqb c ".")%nat.

Definition lower (c : ascii) : ascii :=
  let n := nat_of_ascii c in
  if ((65 <=? n) && (n <=? 90))%nat then ascii_of_nat (n + 32) else c.

Fixpoint map_string (f : ascii → ascii) (s : string) : string :=
  match s with
  | EmptyString => EmptyString
  | String c s' => String (f c) (map_string f s')
  end.

Fixpoint all_string (f : ascii → bool) (s : string) : bool :=
  match s with
  | EmptyString => true
  | String c s' => f c && all_string f s'
  end.

(** The longest prefix without [/], [?] or [#]. *)
Fixpoint netloc_of (s : string) : string :=
  match s with
  | EmptyString => EmptyString
  | String c s' =>
      if Ascii.eqb c "/" || Ascii.eqb c "?" || Ascii.eqb c "#" then EmptyString
      else String c (netloc_of s')
  end.

Definition urlparse_model (url : string) : ParseResult :=
  let '(scheme, rest) :=
    match String.index 0 ":" url with
    | Some i =>
        let head := String.substring 0 i url in
        if (0 <? i)%nat
           && match url with String c _ => is_alpha c | EmptyString => false end
           && all_string is_scheme_char head
        then (map_string lower head,
              String.substring (i + 1) (String.length url - (i + 1)) url)
        else (EmptyString, url)
    | None => (EmptyString, url)
    end in
  {| scheme := scheme;
     netloc := if Py.startswith rest "//"
               then netloc_of (String.substring 2 (String.length rest - 2) rest)
               else EmptyString |}.

(** [re.search] for a pattern without metacharacters: the pattern occurs
    somewhere in the string (the empty pattern always does). *)
Fixpoint re_search_literal (pattern s : string) : bool :=
  if String.prefix pattern s then true
  else match s with
       | EmptyString => false
       | String _ s' => re_search_literal pattern s'
       end.

Definition a (href : string) : Tag :=
  {| tag_name := "a"; attrs := {[ "href"%string := href ]} |}.
Definition img (src : string) : Tag :=
  {| tag_name := "img"; attrs := {[ "src"%string := src ]} |}.

(** A site and its images; [set.pop] takes the first element of the
    enumeration. *)
Definition env (site : gmap string BeautifulSoup) (images : gmap string Image) : Env :=
  {| urlparse := urlparse_model;
     re_search := re_search_literal;
     requests_get := λ url, site !! url;
     image_open := λ image_url, images !! image_url;
     choice := λ _, 0%nat |}.

(** The world right after [MegaScraper(seed, ...)] with the default
    regexes, output folder, group size and first folder number, on an
    empty disk. *)
Definition start (E : Env) (seed : string) (min_width min_height : Z)
    (output_structure : OutputStructure) (output_naming : OutputNaming) : World :=
  {| self := construct E seed "" "" min_width min_height "scraped"
               output_structure output_naming 100 1;
     fs := ∅; log := [] |}.

(** A site whose only page links to itself. *)
Definition loop_site : gmap string BeautifulSoup :=
  {[ "http://a.com/"%string := [a "/"] ]}.
Definition loop_env : Env := env loop_site ∅.
Definition loop_start : World := start loop_env "http://a.com/" 0 0 flat keep.

(** A site whose seed has an image and a link to a page that cannot be
    fetched. *)
Definition broken_site : gmap string BeautifulSoup :=
  {[ "http://a.com/"%string := [a "/b"; img "/foo.png"] ]}.
Definition broken_env : Env := env broken_site ∅.
Definition broken_start : World := start broken_env "http://a.com/" 0 0 flat keep.

(** A page of an [https] site that links to the same host over [http]. *)
Definition mixed_page : BeautifulSoup := [a "http://a.com/x"].
Definition mixed_env : Env := env {[ "https://a.com/"%string := mixed_page ]} ∅.
Definition mixed_start : World := start mixed_env "https://a.com/" 0 0 flat keep.

(** A site of two pages with a link to another host, three images and an
    animation; one of the images is too small for the thresholds used. *)
Definition small_site : gmap string BeautifulSoup :=
  {[ "http://a.com/"%string :=
       [a "/p1"; a "http://b.com/"; img "/i1.png"; img "/anim.gif"];
     "http://a.com/p1"%string :=
       [a "/"; img "/i2.png"; img "http://cdn.com/i3.jpg"] ]}.
Definition small_images : gmap string Image :=
  {[ "http://a.com/i1.png"%string := {| width := 10; height := 10 |};
     "http://a.com/i2.png"%string := {| width := 1; height := 1 |};
     "http://cdn.com/i3.jpg"%string := {| width := 20; height := 20 |} ]}.
Definition small_env : Env := env small_site small_images.
Definition small_start : World :=
  start small_env "http://a.com/" 5 5 grouped numerical.

(** A site of four pages, with two ways to the third page, a link back to
    the seed and a page that links to itself; and the same site with
    [set.pop] taking an element that depends on how many calls to the
    collaborators were made before. *)
Definition tree_site : gmap string BeautifulSoup :=
  {[ "http://a.com/"%string := [a "/p1"; a "/p2"; img "/s.png"];
     "http://a.com/p1"%string := [a "/p3"; img "/1.png"];
     "http://a.com/p2"%string := [a "/p3"; a "/p2"; img "/2.png"];
     "http://a.com/p3"%string := [a "/"; img "/3.png"; img "/1.png"] ]}.
Definition tree_env : Env := env tree_site ∅.
Definition tree_env_other : Env :=
  {| urlparse := urlparse_model;
     re_search := re_search_literal;
     requests_get := λ url, tree_site !! url;
     image_open := λ image_url, None;
     choice := λ l, length l |}.
Definition tree_start : World := start tree_env "http://a.com/" 0 0 flat keep.

End Demo.

(** ** Vocabulary of the statements *)

(** The pages fetched, the images opened and the files saved, in the order
    of the log. *)
Definition gets (l : list event) : list string :=
  omap (λ e, match e with EvGet url => Some url | _ => None end) l.
Definition opens (l : list event) : list string :=
  omap (λ e, match e with EvOpen image_url => Some image_url | _ => None end) l.
Definition saves (l : list event) : list (string * string) :=
  omap (λ e, match e with EvSave image_url path => Some (image_url, path) | _ => None end) l.

(** What [scrape] leaves alone. *)
Definition scrape_frame (w w' : World) : Prop :=
  cfg (self w') = cfg (self w)
  ∧ _images_urls (self w') = _images_urls (self w)
  ∧ _downloaded (self w') = _downloaded (self w)
  ∧ _downloaded_idx (self w') = _downloaded_idx (self w)
  ∧ fs w' = fs w.

(** What [download] leaves alone. *)
Definition download_frame (w w' : World) : Prop :=
  cfg (self w') = cfg (self w)
  ∧ _explored (self w') = _explored (self w)
  ∧ _unexplored (self w') = _unexplored (self w)
  ∧ _images_urls (self w') = _images_urls (self w)
  ∧ gets (log w') = gets (log w).

(** No image URL kept in [_images_urls] ends in [.gif]. *)
Definition no_gif (w : World) : Prop :=
  ∀ image_url,
    image_url ∈ _images_urls (self w) → Py.endswith image_url ".gif" = false.

(** Two environments that show the same site: they may differ in the
    element [set.pop] removes (and in the images). *)
Definition same_site (E1 E2 : Env) : Prop :=
  (∀ url, urlparse E1 url = urlparse E2 url)
  ∧ (∀ pattern s, re_search E1 pattern s = re_search E2 pattern s)
  ∧ (∀ url, requests_get E1 url = requests_get E2 url).

(** The call was not a [scrape] that raised. *)
Definition scrape_ok (o : outcome) : Prop :=
  match o with
  | Scraped (Raise _) => False
  | _ => True
  end.

(** The sets the calls of [scrape] returned. *)
Definition scraped_sets (os : list outcome) : list (gset string) :=
  omap (λ o, match o with Scraped (Ok s) => Some s | _ => None end) os.

(** From [w] to [w'] nothing was forgotten: the sets of the object, the
    counter, the disk and the log have only grown, and the configuration
    is the same. *)
Definition grows (w w' : World) : Prop :=
  cfg (self w') = cfg (self w)
  ∧ _explored (self w) ⊆ _explored (self w')
  ∧ _images_urls (self w) ⊆ _images_urls (self w')
  ∧ _downloaded (self w) ⊆ _downloaded (self w')
  ∧ _downloaded_idx (self w) ≤ _downloaded_idx (self w')
  ∧ fs w ⊆ fs w'
  ∧ log w `prefix_of` log w'.

(** The world in which a new object meets a disk and no call was made. *)
Definition fresh (self : MegaScraper) (disk : gset string) : World :=
  {| self := self; fs := disk; log := [] |}.

Section Vocabulary.

Variable E : Env.

(** The world after [url] was popped and its fetch failed. *)
Definition popped (w : World) (url : string) : World :=
  {| self := with_unexplored (self w) (_unexplored (self w) ∖ {[url]});
     fs := fs w;
     log := log w ++ [EvGet url] |}.

(** The world after a whole turn of the loop of [scrape] on [url], whose
    page is [soup]. *)
Definition explore (w : World) (url : string) (soup : BeautifulSoup) : World :=
  {| self := {| cfg := cfg (self w);
                _explored := _explored (self w) ∪ {[url]};
                _unexplored := _unexplored (self w) ∖ {[url]}
                               ∪ _extract_unexplored_pages E (self w) soup;
                _images_urls := _images_urls (self w);
                _downloaded := _downloaded (self w);
                _downloaded_idx := _downloaded_idx (self w) |};
     fs := fs w;
     log := log w ++ [EvGet url] |}.

(** The links of the page at [url] that stay on the seed's network
    location, explored or not. *)
Definition links (self : MegaScraper) (url : string) : gset string :=
  match requests_get E url with
  | Some soup => _extract_unexplored_pages E (with_explored self ∅) soup
  | None => ∅
  end.

(** The image URLs a visit of [url] adds to the accumulator of [scrape]. *)
Definition images_of_page (self : MegaScraper) (url : string) : gset string :=
  match requests_get E url with
  | Some soup =>
      if re_search E (_regex_pages self) url
      then _extract_images_urls E self soup
      else ∅
  | None => ∅
  end.

(** The union of the image URLs extracted from the pages of [visited]
    whose URL matches the page regex. *)
Definition images_this_call (self : MegaScraper) (visited : list string)
    : gset string :=
  ⋃ (images_of_page self <$> visited).

(** The pages that can be reached from the seed through such links. *)
Inductive reach (self : MegaScraper) : string → Prop :=
| reach_seed : reach self (_seed self)
| reach_link url href :
    reach self url → href ∈ links self url → reach self href.

(** [self] is an object as the constructor returns it. *)
Definition constructed (self : MegaScraper) : Prop :=
  ∃ seed regex_pages regex_images min_width min_height output_folderpath
    output_structure output_naming images_per_folder folder_initial_num,
    __init__ E seed regex_pages regex_images min_width min_height
      output_folderpath output_structure output_naming
      images_per_folder folder_initial_num = Ok self.

(** No page of the site has a link to itself. *)
Definition no_self_link (self0 : MegaScraper) : Prop :=
  ∀ url, url ∉ links self0 url.

(** What the crawler maintains between the turns of its loop as long as no
    fetch fails; [images_urls] is the accumulator of the running call and
    [self0] the object as it was made. *)
Definition crawl_inv (self0 : MegaScraper) (w : World) (images_urls : gset string)
    : Prop :=
  cfg (self w) = cfg self0
  ∧ _seed self0 ∈ _explored (self w) ∪ _unexplored (self w)
  ∧ (∀ url, url ∈ _explored (self w) ∪ _unexplored (self w) → reach self0 url)
  ∧ (∀ url, url ∈ _explored (self w) →
            links self0 url ⊆ _explored (self w) ∪ _unexplored (self w))
  ∧ (∀ url, url ∈ _explored (self w) → is_Some (requests_get E url))
  ∧ (∀ image_url,
       image_url ∈ _images_urls (self w) ∪ images_urls
       ↔ ∃ url, url ∈ _explored (self w) ∧ image_url ∈ images_of_page self0 url).

(** The scheme and the network location of [href] are those of the seed. *)
Definition same_origin (self : MegaScraper) (href : string) : Prop :=
  scheme (urlparse E href) = scheme (_parsed_seed self)
  ∧ netloc (urlparse E href) = netloc (_parsed_seed self).

(** Every URL waiting in [_unexplored] has the network location of the
    seed. *)
Definition on_seed_netloc (w : World) : Prop :=
  ∀ url, url ∈ _unexplored (self w) →
         netloc (urlparse E url) = netloc (_parsed_seed (self w)).

(** The size test of [download]. *)
Definition big_enough (self : MegaScraper) (image : Image) : Prop :=
  _min_width self ≤ width image ∧ _min_height self ≤ height image.

(** Where the grouped layout with numerical names puts the [n]-th saved
    image ([n] counted from 1). *)
Definition grouped_path (self : MegaScraper) (n : Z) : string :=
  Py.path_join
    (Py.path_join (_output_folderpath self)
       (Py.zfill 4 (Py.str ((n - 1) `div` _images_per_folder self
                            + _folder_initial_num self))))
    (Py.str n +:+ ".jpg").

(** The path [download] saves [image_url] at when it passes the size
    test. *)
Definition image_filepath (self : MegaScraper) (image_url : string) : string :=
  match _output_structure self with
  | flat => Py.path_join (_output_folderpath self) (image_filename self image_url)
  | grouped =>
      Py.path_join (Py.path_join (_output_folderpath self) (image_foldername self))
        (image_filename self image_url)
  end.

(** The [n]-th image saved since the object was made ([n] counted from
    1): its URL and the path it was saved at. *)
Definition nth_saved (w : World) (n : nat) : option (string * string) :=
  match n with
  | O => None
  | S k => saves (log w) !! k
  end.

(** The images whose fetch and decode succeeded, in the order of the log. *)
Definition decoded (l : list event) : list string :=
  filter (λ image_url, is_Some (image_open E image_url)) (opens l).

(** What the downloader maintains between the turns of its loop. *)
Definition download_inv (w : World) : Prop :=
  _downloaded_idx (self w) = 1 + Z.of_nat (length (saves (log w)))
  ∧ (∀ image_url, image_url ∈ _downloaded (self w) ↔ image_url ∈ decoded (log w))
  ∧ NoDup (decoded (log w))
  ∧ (∀ image_url image,
       image_open E image_url = Some image → image_url ∈ opens (log w) →
       (∃ path, (image_url, path) ∈ saves (log w)) ↔ big_enough (self w) image)
  ∧ (∀ image_url path,
       (image_url, path) ∈ saves (log w) → image_url ∈ _downloaded (self w))
  ∧ (_output_structure (self w) = grouped → _output_naming (self w) = numerical →
     0 < _images_per_folder (self w) →
     ∀ k image_url path,
       saves (log w) !! k = Some (image_url, path) →
       path = grouped_path (self w) (Z.of_nat k + 1)).

End Vocabulary.

(** The objects of the demo sites are objects of the constructor. *)
Ltac demo_constructed :=
  cbv [Demo.loop_start Demo.broken_start Demo.mixed_start Demo.small_start
       Demo.tree_start Demo.start self];
  match goal with
  | |- constructed _ (construct _ ?seed ?rp ?ri ?mw ?mh ?out ?os ?on ?ipf ?fin) =>
      exists seed, rp, ri, mw, mh, out, os, on, ipf, fin; reflexivity
  end.

(** ** Helper lemmas on strings and sets *)

(** A tail of [p ++ s] that is not a tail of [s] is longer than [s]. *)
Lemma endswith_app_inv p s suf :
  Py.endswith (p +:+ s) suf = true →
  Py.endswith s suf = true ∨ ∃ q, suf = q +:+ s.
Proof.
  induction p as [|c p IH]; [by left|].
  change (String c p +:+ s) with (String c (p +:+ s)).
  cbn [Py.endswith].
  destruct (String.eqb_spec (String c (p +:+ s)) suf) as [<-|_].
  - intros _. right. by exists (String c p).
  - apply IH.
Qed.

Lemma endswith_gif_resolved root src :
  Py.startswith src "/" = true →
  Py.endswith (root +:+ src) ".gif" = true → Py.endswith src ".gif" = true.
Proof.
  intros Hs [H|[q Hq]]%endswith_app_inv; [done|].
  destruct src as [|c src]; [done|]. simpl in Hs.
  destruct (Ascii.eqb_spec "/"%char c) as [<-|]; [|by destruct c as [[] [] [] [] [] [] [] []]].
  exfalso. clear Hs.
  do 4 (destruct q as [|? q]; simpl in Hq; [discriminate|injection Hq as ? Hq]).
  by destruct q.
Qed.

Lemma set_pop_elem k (s : gset string) x : Py.set_pop k s = Some x → x ∈ s.
Proof.
  unfold Py.set_pop. intros H%list_elem_of_lookup_2. by apply elem_of_elements in H.
Qed.

Lemma set_pop_is_Some k (s : gset string) : s ≠ ∅ → is_Some (Py.set_pop k s).
Proof.
  intros Hne. unfold Py.set_pop. apply lookup_lt_is_Some.
  apply Nat.mod_upper_bound. intros Hl. apply Hne.
  apply leibniz_equiv, elements_empty_inv. by apply nil_length_inv.
Qed.

(** ** The extractors *)

Section Extractors.

Variable E : Env.

Lemma elem_of_foldl_union {A} (f : gset string → A → gset string) l acc x :
  (∀ acc e, f acc e = acc ∪ f ∅ e) →
  x ∈ foldl f acc l ↔ x ∈ acc ∨ ∃ e, e ∈ l ∧ x ∈ f ∅ e.
Proof.
  intros Hf. revert acc. induction l as [|e l IH]; intros acc; simpl.
  - split; [by left|]. intros [?|(e & He & _)]; [done|]. by apply elem_of_nil in He.
  - rewrite IH, Hf. split.
    + intros [[?|?]%elem_of_union|(e' & ? & ?)]; [by left|right..].
      * exists e. split; [left|done].
      * exists e'. split; [by right|done].
    + intros [?|(e' & [->|?]%elem_of_cons & ?)].
      * left. apply elem_of_union. by left.
      * left. apply elem_of_union. by right.
      * right. by exists e'.
Qed.

Lemma add_unexplored_page_union self acc element :
  add_unexplored_page E self acc element
  = acc ∪ add_unexplored_page E self ∅ element.
Proof. unfold add_unexplored_page. repeat case_match; set_solver. Qed.

Lemma add_image_url_union self acc element :
  add_image_url E self acc element = acc ∪ add_image_url E self ∅ element.
Proof. unfold add_image_url. repeat case_match; set_solver. Qed.

(** What one anchor contributes. *)
Lemma elem_of_add_unexplored_page self element x :
  x ∈ add_unexplored_page E self ∅ element ↔
  ∃ href, Py.truthy (get element "href") = Some href
          ∧ x = (if Py.startswith href "/" then _root self +:+ href else href)
          ∧ (x ∉ _explored self)
          ∧ netloc (urlparse E x) = netloc (_parsed_seed self).
Proof.
  unfold add_unexplored_page.
  destruct (Py.truthy (get element "href")) as [href|].
  2: { split; [by intros Hemp%not_elem_of_empty|]. by intros (? & ? & _). }
  set (r := if Py.startswith href "/" then _ else _).
  destruct (bool_decide (r ∉ _explored self)) eqn:Hx;
    [apply bool_decide_eq_true in Hx|apply bool_decide_eq_false in Hx]; simpl.
  - destruct (String.eqb_spec (netloc (urlparse E r)) (netloc (_parsed_seed self))).
    + rewrite elem_of_union, elem_of_singleton. split.
      * intros [Hemp| ->]; [by apply not_elem_of_empty in Hemp|]. by exists href.
      * intros (? & Hh & -> & _). injection Hh as <-. by right.
    + split; [by intros Hemp%not_elem_of_empty|].
      intros (? & Hh & -> & _ & ?). by injection Hh as <-.
  - split; [by intros Hemp%not_elem_of_empty|].
    intros (? & Hh & -> & ? & _). by injection Hh as <-.
Qed.

Lemma elem_of_extract_unexplored_pages self soup x :
  x ∈ _extract_unexplored_pages E self soup ↔
  ∃ element href,
    element ∈ find_all soup "a"
    ∧ Py.truthy (get element "href") = Some href
    ∧ x = (if Py.startswith href "/" then _root self +:+ href else href)
    ∧ (x ∉ _explored self)
    ∧ netloc (urlparse E x) = netloc (_parsed_seed self).
Proof.
  unfold _extract_unexplored_pages.
  rewrite elem_of_foldl_union by apply add_unexplored_page_union.
  setoid_rewrite elem_of_add_unexplored_page. set_solver.
Qed.

(** The extractor returns the links of the page minus the explored ones. *)
Lemma extract_unexplored_pages_links self soup :
  _extract_unexplored_pages E self soup
  = _extract_unexplored_pages E (with_explored self ∅) soup ∖ _explored self.
Proof.
  apply set_eq. intros x.
  rewrite elem_of_difference, !elem_of_extract_unexplored_pages. simpl.
  split.
  - intros (el & href & ? & ? & ? & ? & ?). split; [|done].
    exists el, href. set_solver.
  - intros [(el & href & ? & ? & ? & ? & ?) ?]. by exists el, href.
Qed.

(** What one image element contributes. *)
Lemma elem_of_add_image_url self element x :
  x ∈ add_image_url E self ∅ element ↔
  ∃ src, Py.truthy (get element "src") = Some src
         ∧ Py.endswith src ".gif" = false
         ∧ x = (if Py.startswith src "/" then _root self +:+ src else src)
         ∧ re_search E (_regex_images self) x = true.
Proof.
  unfold add_image_url.
  destruct (Py.truthy (get element "src")) as [src|].
  2: { split; [by intros Hemp%not_elem_of_empty|]. by intros (? & ? & _). }
  destruct (Py.endswith src ".gif") eqn:Hgif; simpl.
  { split; [by intros Hemp%not_elem_of_empty|].
    intros (? & Hs & ? & _). injection Hs as <-. congruence. }
  set (r := if Py.startswith src "/" then _ else _).
  destruct (re_search E (_regex_images self) r) eqn:Hre.
  - rewrite elem_of_union, elem_of_singleton. split.
    + intros [Hemp| ->]; [by apply not_elem_of_empty in Hemp|]. by exists src.
    + intros (? & Hs & _ & -> & _). injection Hs as <-. by right.
  - split; [by intros Hemp%not_elem_of_empty|].
    intros (? & Hs & _ & -> & Hm). injection Hs as <-. fold r in Hm. congruence.
Qed.

Lemma elem_of_extract_images_urls self soup x :
  x ∈ _extract_images_urls E self soup ↔
  ∃ element src,
    element ∈ find_all soup "img"
    ∧ Py.truthy (get element "src") = Some src
    ∧ Py.endswith src ".gif" = false
    ∧ x = (if Py.startswith src "/" then _root self +:+ src else src)
    ∧ re_search E (_regex_images self) x = true.
Proof.
  unfold _extract_images_urls.
  rewrite elem_of_foldl_union by apply add_image_url_union.
  setoid_rewrite elem_of_add_image_url. set_solver.
Qed.

(** Image extraction reads the configuration only. *)
Lemma extract_images_urls_cfg self self' soup :
  cfg self = cfg self' →
  _extract_images_urls E self soup = _extract_images_urls E self' soup.
Proof.
  intros Hc. apply set_eq. intros x.
  rewrite !elem_of_extract_images_urls. by rewrite Hc.
Qed.

Lemma extract_images_urls_not_gif self soup x :
  x ∈ _extract_images_urls E self soup → Py.endswith x ".gif" = false.
Proof.
  intros (el & src & _ & _ & Hgif & -> & _)%elem_of_extract_images_urls.
  destruct (Py.startswith src "/") eqn:Hs; [|done].
  destruct (Py.endswith (_root self +:+ src) ".gif") eqn:Hr; [|done].
  apply endswith_gif_resolved in Hr; congruence.
Qed.

End Extractors.

(** ** The loop of [scrape] *)

Section Scrape.

Variable E : Env.

Lemma images_of_page_cfg self self' url :
  cfg self = cfg self' → images_of_page E self url = images_of_page E self' url.
Proof.
  intros Hc. unfold images_of_page. destruct (requests_get E url); [|done].
  rewrite Hc. by rewrite (extract_images_urls_cfg E self self').
Qed.

Lemma links_cfg self self' url :
  cfg self = cfg self' → links E self url = links E self' url.
Proof.
  intros Hc. unfold links. destruct (requests_get E url) as [soup|]; [|done].
  apply set_eq. intros x. rewrite !elem_of_extract_unexplored_pages. simpl.
  by rewrite Hc.
Qed.

Lemma images_this_call_snoc self visited url :
  images_this_call E self (visited ++ [url])
  = images_this_call E self visited ∪ images_of_page E self url.
Proof.
  unfold images_this_call. rewrite fmap_app, union_list_app_L. simpl.
  by rewrite (right_id_L ∅ (∪)).
Qed.

(** A turn of the loop pops some unexplored URL and either explores it or
    stops at its failed fetch. *)
Lemma scrape_iteration_cases w acc :
  _unexplored (self w) ≠ ∅ →
  ∃ url, url ∈ _unexplored (self w) ∧
    match requests_get E url with
    | Some soup =>
        scrape_iteration E w acc
        = (explore E w url soup, Ok (acc ∪ images_of_page E (self w) url))
    | None => scrape_iteration E w acc = (popped w url, Raise (FetchError url))
    end.
Proof.
  intros [url Hpop]%(set_pop_is_Some (choice E (log w))).
  exists url. split; [by eapply set_pop_elem|].
  unfold scrape_iteration, images_of_page. rewrite Hpop. simpl.
  destruct (requests_get E url) as [soup|]; [|done].
  simpl. f_equal. f_equal.
  destruct (re_search E (_regex_pages (self w)) url).
  - reflexivity.
  - by rewrite (right_id_L ∅ (∪)).
Qed.

(** The proof rule of the loop: [I] is kept by every completed turn, [Q]
    holds where a fetch fails. *)
Lemma scrape_loop_rule (I : World → gset string → Prop) (Q : World → exn → Prop) :
  (∀ w acc url soup,
      I w acc → url ∈ _unexplored (self w) → requests_get E url = Some soup →
      I (explore E w url soup) (acc ∪ images_of_page E (self w) url)) →
  (∀ w acc url,
      I w acc → url ∈ _unexplored (self w) → requests_get E url = None →
      Q (popped w url) (FetchError url)) →
  ∀ n w acc, I w acc →
    match scrape_loop E n w acc with
    | (w', Ok acc') => I w' acc'
    | (w', Raise e) => Q w' e
    end.
Proof.
  intros Hok Hfail. induction n as [|n IH]; intros w acc HI; simpl; [done|].
  case_bool_decide as Hne; [done|].
  destruct (scrape_iteration_cases w acc Hne) as (url & Hin & Hit).
  destruct (requests_get E url) as [soup|] eqn:Hget; rewrite Hit.
  - apply IH. by eapply Hok.
  - by eapply Hfail.
Qed.

(** What a run of the loop did, in terms of the pages it visited. *)
Lemma scrape_loop_trace n w acc :
  match scrape_loop E n w acc with
  | (w', r) =>
      ∃ visited,
        scrape_frame w w'
        ∧ _explored (self w') = _explored (self w) ∪ list_to_set visited
        ∧ Forall (λ url, is_Some (requests_get E url)) visited
        ∧ match r with
          | Ok acc' =>
              log w' = log w ++ (EvGet <$> visited)
              ∧ acc' = acc ∪ images_this_call E (self w) visited
              ∧ ∀ page, page ∈ visited →
                  links E (self w) page
                  ⊆ _explored (self w') ∪ _unexplored (self w')
          | Raise e =>
              ∃ url, e = FetchError url
                     ∧ requests_get E url = None
                     ∧ (url ∉ _unexplored (self w'))
                     ∧ log w' = log w ++ (EvGet <$> visited) ++ [EvGet url]
                     ∧ ∀ page, page ∈ visited →
                         links E (self w) page
                         ⊆ _explored (self w') ∪ _unexplored (self w') ∪ {[url]}
          end
  end.
Proof.
  set (I := λ (w' : World) (acc' : gset string),
    ∃ visited,
      scrape_frame w w'
      ∧ _explored (self w') = _explored (self w) ∪ list_to_set visited
      ∧ Forall (λ url, is_Some (requests_get E url)) visited
      ∧ log w' = log w ++ (EvGet <$> visited)
      ∧ acc' = acc ∪ images_this_call E (self w) visited
      ∧ ∀ page, page ∈ visited →
          links E (self w) page ⊆ _explored (self w') ∪ _unexplored (self w')).
  set (Q := λ (w' : World) (e : exn),
    ∃ visited,
      scrape_frame w w'
      ∧ _explored (self w') = _explored (self w) ∪ list_to_set visited
      ∧ Forall (λ url, is_Some (requests_get E url)) visited
      ∧ ∃ url, e = FetchError url
               ∧ requests_get E url = None
               ∧ (url ∉ _unexplored (self w'))
               ∧ log w' = log w ++ (EvGet <$> visited) ++ [EvGet url]
               ∧ ∀ page, page ∈ visited →
                   links E (self w) page
                   ⊆ _explored (self w') ∪ _unexplored (self w') ∪ {[url]}).
  assert (HI : I w acc).
  { exists []. unfold scrape_frame, images_this_call. simpl.
    rewrite !(right_id_L ∅ (∪)), app_nil_r.
    repeat split; try done. by intros page Hp%elem_of_nil. }
  pose proof (scrape_loop_rule I Q) as Hrule.
  destruct (scrape_loop E n w acc) as [w' r] eqn:Hloop.
  assert (Hgoal : match r with Ok acc' => I w' acc' | Raise e => Q w' e end).
  { specialize (Hrule) with (n := n) (w := w) (acc := acc).
    rewrite Hloop in Hrule. apply Hrule; [| |done]; clear.
    - intros w1 acc1 url soup
        (visited & (Hc & ? & ? & ? & ?) & Hex & Hall & Hlog & -> & Hlinks) Hin Hget.
      exists (visited ++ [url]). unfold scrape_frame. simpl.
      repeat split; try done.
      + rewrite Hex, list_to_set_app_L. simpl.
        by rewrite (right_id_L ∅ (∪)), (assoc_L (∪)).
      + apply Forall_app. split; [done|]. by repeat constructor.
      + by rewrite Hlog, fmap_app, (assoc_L (++)).
      + rewrite images_this_call_snoc, (assoc_L (∪)). f_equal.
        by apply images_of_page_cfg.
      + intros page [Hp|Hp%list_elem_of_singleton]%elem_of_app x Hx.
        * specialize (Hlinks page Hp x Hx).
          destruct (decide (x = url)) as [->|Hne].
          { apply elem_of_union. left. apply elem_of_union. right.
            by apply elem_of_singleton. }
          apply elem_of_union in Hlinks as [Hl|Hl].
          { apply elem_of_union. left. apply elem_of_union. by left. }
          apply elem_of_union. right. apply elem_of_union. left.
          apply elem_of_difference. split; [done|]. by rewrite elem_of_singleton.
        * subst page.
          destruct (decide (x ∈ _explored (self w1))) as [He|He].
          { apply elem_of_union. left. apply elem_of_union. by left. }
          apply elem_of_union. right. apply elem_of_union. right.
          rewrite extract_unexplored_pages_links. apply elem_of_difference.
          split; [|done].
          rewrite (links_cfg (self w) (self w1)) in Hx by done.
          unfold links in Hx. by rewrite Hget in Hx.
    - intros w1 acc1 url
        (visited & (Hc & ? & ? & ? & ?) & Hex & Hall & Hlog & -> & Hlinks) Hin Hget.
      exists visited. unfold scrape_frame. simpl. repeat split; try done.
      exists url. repeat split; try done.
      + rewrite elem_of_difference, elem_of_singleton. tauto.
      + by rewrite Hlog, (assoc_L (++)).
      + intros page Hp x Hx. specialize (Hlinks page Hp x Hx).
        destruct (decide (x = url)) as [->|Hne].
        { apply elem_of_union. right. by apply elem_of_singleton. }
        apply elem_of_union. left.
        apply elem_of_union in Hlinks as [Hl|Hl]; apply elem_of_union; [by left|right].
        apply elem_of_difference. split; [done|]. by rewrite elem_of_singleton. }
  destruct r as [acc'|e].
  - destruct Hgoal as (visited & ? & ? & ? & ? & ? & ?). by exists visited.
  - destruct Hgoal as (visited & ? & ? & ? & ?). by exists visited.
Qed.


(** C3, as the code has it.  When a page fetch fails in a call of
    [scrape], the call raises for that URL; the pages visited earlier in
    the call are in [_explored] and each of their links is explored,
    still unexplored, or the failing URL; the failing URL has left
    [_unexplored]; and [_images_urls], like all that [scrape] does not
    own, is what it was before the call. *)
Theorem scrape_fetch_failure w max_pages w' url :
  scrape E max_pages w = (w', Raise (FetchError url)) →
  requests_get E url = None
  ∧ ∃ visited,
      log w' = log w ++ (EvGet <$> visited) ++ [EvGet url]
      ∧ _explored (self w') = _explored (self w) ∪ list_to_set visited
      ∧ (∀ page, page ∈ visited →
           links E (self w) page
           ⊆ _explored (self w') ∪ _unexplored (self w') ∪ {[url]})
      ∧ (url ∉ _unexplored (self w'))
      ∧ _images_urls (self w') = _images_urls (self w)
      ∧ scrape_frame w w'.
Proof.
  unfold scrape. destruct (1 <=? max_pages); simpl; [|by intros [= <-]].
  pose proof (scrape_loop_trace (Z.to_nat max_pages) w ∅) as Htrace.
  destruct (scrape_loop E (Z.to_nat max_pages) w ∅) as [w1 [acc|e]]; [done|].
  intros [= -> ->].
  destruct Htrace as (visited & Hfr & Hex & _ & url' & [= <-] & Hget & Hnot & Hlog & Hl).
  split; [done|]. exists visited.
  destruct Hfr as (? & ? & ? & ? & ?). by repeat split.
Qed.

End Scrape.

(** ** The loop of [download] and sequences of calls *)

Section Calls.

Variable E : Env.

Lemma download_loop_rule (I : World → Prop) :
  (∀ w image_url,
      I w → image_url ∈ _images_urls (self w) ∖ _downloaded (self w) →
      I (download_image E w image_url).1) →
  ∀ n w, I w → I (download_loop E n w).1.
Proof.
  intros Hstep. induction n as [|n IH]; intros w HI; simpl; [done|].
  case_bool_decide as Hne; [done|].
  destruct (set_pop_is_Some (choice E (log w)) _ Hne) as [image_url Hpop].
  rewrite Hpop. pose proof (Hstep w image_url HI (set_pop_elem _ _ _ Hpop)) as HI'.
  destruct (download_image E w image_url) as [w1 [[]|e]]; [|done].
  by apply IH.
Qed.

Lemma download_rule (I : World → Prop) :
  (∀ w path, I w → I (makedirs w path)) →
  (∀ w image_url,
      I w → image_url ∈ _images_urls (self w) ∖ _downloaded (self w) →
      I (download_image E w image_url).1) →
  ∀ how_many w, I w → I (download E how_many w).1.
Proof.
  intros Hmk Hstep how_many w HI. unfold download.
  apply download_loop_rule; [done|]. by destruct (path_exists _ _); [|apply Hmk].
Qed.

Lemma run_calls_rule (I : World → Prop) :
  (∀ max_pages w, I w → I (scrape E max_pages w).1) →
  (∀ how_many w, I w → I (download E how_many w).1) →
  ∀ cs w, I w → I (run_calls E cs w).1.
Proof.
  intros Hs Hd. induction cs as [|c cs IH]; intros w HI; simpl; [done|].
  destruct c as [max_pages|how_many]; simpl.
  - specialize (Hs max_pages w HI). destruct (scrape E max_pages w) as [w1 r].
    specialize (IH w1 Hs). by destruct (run_calls E cs w1).
  - specialize (Hd how_many w HI). destruct (download E how_many w) as [w1 r].
    specialize (IH w1 Hd). by destruct (run_calls E cs w1).
Qed.

Lemma constructed_inv self :
  constructed E self →
  _explored self = ∅ ∧ _unexplored self = {[_seed self]}
  ∧ _images_urls self = ∅ ∧ _downloaded self = ∅ ∧ _downloaded_idx self = 1
  ∧ _parsed_seed self = urlparse E (_seed self)
  ∧ 0 < _images_per_folder self ∧ 0 < _folder_initial_num self.
Proof.
  intros (seed & rp & ri & mw & mh & out & os & on & ipf & fin & Hinit).
  unfold __init__ in Hinit.
  destruct (0 <? ipf) eqn:Hipf; [|done]. destruct (0 <? fin) eqn:Hfin; [|done].
  simpl in Hinit. injection Hinit as <-. simpl. repeat split; lia.
Qed.

Lemma gets_app l1 l2 : gets (l1 ++ l2) = gets l1 ++ gets l2.
Proof. apply omap_app. Qed.
Lemma opens_app l1 l2 : opens (l1 ++ l2) = opens l1 ++ opens l2.
Proof. apply omap_app. Qed.
Lemma saves_app l1 l2 : saves (l1 ++ l2) = saves l1 ++ saves l2.
Proof. apply omap_app. Qed.

Lemma opens_fmap_get visited : opens (EvGet <$> visited) = [].
Proof. by induction visited. Qed.
Lemma saves_fmap_get visited : saves (EvGet <$> visited) = [].
Proof. by induction visited. Qed.

Lemma big_enough_test (self : MegaScraper) image :
  (_min_width self <=? width image) && (_min_height self <=? height image) = true
  ↔ big_enough self image.
Proof. unfold big_enough. rewrite andb_true_iff, !Z.leb_le. done. Qed.

(** What the body of the loop of [download] does to the world. *)
Lemma download_image_spec w image_url :
  let w' := (download_image E w image_url).1 in
  download_frame w w'
  ∧ opens (log w') = opens (log w) ++ [image_url]
  ∧ match image_open E image_url with
    | None =>
        _downloaded (self w') = _downloaded (self w)
        ∧ _downloaded_idx (self w') = _downloaded_idx (self w)
        ∧ saves (log w') = saves (log w)
        ∧ fs w' = fs w
    | Some image =>
        _downloaded (self w') = _downloaded (self w) ∪ {[image_url]}
        ∧ if (_min_width (self w) <=? width image)
             && (_min_height (self w) <=? height image)
          then _downloaded_idx (self w') = _downloaded_idx (self w) + 1
               ∧ saves (log w')
                 = saves (log w) ++ [(image_url, image_filepath (self w) image_url)]
          else _downloaded_idx (self w') = _downloaded_idx (self w)
               ∧ saves (log w') = saves (log w)
               ∧ fs w' = fs w
    end.
Proof.
  unfold download_image, download_frame, image_filepath. simpl.
  destruct (image_open E image_url) as [image|]; simpl.
  2: { rewrite gets_app, opens_app, saves_app. simpl. by rewrite !app_nil_r. }
  destruct ((_min_width (self w) <=? width image)
            && (_min_height (self w) <=? height image)); simpl.
  2: { rewrite gets_app, opens_app, saves_app. simpl. by rewrite !app_nil_r. }
  destruct (_output_structure (self w)); simpl.
  - rewrite !gets_app, !opens_app, !saves_app. simpl. by rewrite !app_nil_r.
  - destruct (path_exists _ _); simpl;
      rewrite !gets_app, !opens_app, !saves_app; simpl; by rewrite !app_nil_r.
Qed.

Lemma decoded_snoc l l' image_url :
  opens l' = opens l ++ [image_url] →
  decoded E l'
  = decoded E l ++ match image_open E image_url with
                   | Some _ => [image_url]
                   | None => []
                   end.
Proof.
  intros Hl'. unfold decoded. rewrite Hl', filter_app. f_equal.
  rewrite filter_cons, filter_nil.
  destruct (image_open E image_url) eqn:Him; case_decide as Hd; try done.
  destruct Hd. by eexists.
Qed.

Lemma download_inv_ext w w' :
  cfg (self w') = cfg (self w) →
  _downloaded (self w') = _downloaded (self w) →
  _downloaded_idx (self w') = _downloaded_idx (self w) →
  opens (log w') = opens (log w) →
  saves (log w') = saves (log w) →
  download_inv E w → download_inv E w'.
Proof.
  intros Hc Hd Hi Ho Hs. unfold download_inv, decoded, big_enough, grouped_path.
  by rewrite Hc, Hd, Hi, Ho, Hs.
Qed.

Lemma download_inv_makedirs w path :
  download_inv E w → download_inv E (makedirs w path).
Proof.
  apply download_inv_ext; simpl; try done.
  - rewrite opens_app. simpl. by rewrite app_nil_r.
  - rewrite saves_app. simpl. by rewrite app_nil_r.
Qed.

(** The path of the save when the layout is grouped and the names are
    numbers. *)
Lemma image_filepath_grouped (self : MegaScraper) image_url :
  _output_structure self = grouped → _output_naming self = numerical →
  0 < _images_per_folder self → 1 ≤ _downloaded_idx self →
  image_filepath self image_url = grouped_path self (_downloaded_idx self).
Proof.
  intros Hs Hn Hipf Hidx.
  unfold image_filepath, grouped_path, image_foldername, image_filename.
  rewrite Hs, Hn. by rewrite Z.quot_div_nonneg by lia.
Qed.

Lemma download_inv_image w image_url :
  download_inv E w →
  image_url ∈ _images_urls (self w) ∖ _downloaded (self w) →
  download_inv E (download_image E w image_url).1.
Proof.
  intros (Hidx & Hdl & Hnd & Hsz & Hsv & Hpath) [_ Hnew]%elem_of_difference.
  destruct (download_image_spec w image_url) as ((Hc & _) & Hop & Hcase).
  set (w' := (download_image E w image_url).1) in *.
  pose proof (decoded_snoc (log w) (log w') image_url Hop) as Hdec.
  assert (Hbig : ∀ image, big_enough (self w') image ↔ big_enough (self w) image).
  { intros image. unfold big_enough. by rewrite Hc. }
  assert (Hgp : ∀ n, grouped_path (self w') n = grouped_path (self w) n).
  { intros n. unfold grouped_path. by rewrite Hc. }
  assert (Hnosave : ∀ path, (image_url, path) ∉ saves (log w)).
  { intros path Hp. by apply Hnew, (Hsv image_url path). }
  unfold download_inv. rewrite Hdec, Hop, Hc. setoid_rewrite Hbig. setoid_rewrite Hgp.
  destruct (image_open E image_url) as [image|] eqn:Him.
  - destruct Hcase as (Hd' & Hcase). rewrite Hd'.
    assert (Hdl' : ∀ u, u ∈ _downloaded (self w) ∪ {[image_url]}
                        ↔ u ∈ decoded E (log w) ++ [image_url]).
    { intros u. rewrite elem_of_union, elem_of_app, Hdl.
      by rewrite elem_of_singleton, list_elem_of_singleton. }
    assert (Hnd' : NoDup (decoded E (log w) ++ [image_url])).
    { apply NoDup_app. split; [done|]. split; [|apply NoDup_singleton].
      intros u Hu ->%list_elem_of_singleton. by apply Hnew, Hdl. }
    destruct ((_min_width (self w) <=? width image)
              && (_min_height (self w) <=? height image)) eqn:Htest.
    + apply big_enough_test in Htest.
      destruct Hcase as (Hi' & Hs'). rewrite Hi', Hs'.
      split_and!; try done.
      * rewrite length_app. simpl. lia.
      * intros u img Hu Hin. destruct (decide (u = image_url)) as [->|Hne].
        { assert (img = image) as -> by congruence. split; [done|]. intros _.
          eexists. apply elem_of_app. right. by apply list_elem_of_singleton. }
        apply elem_of_app in Hin as [Hin|Hin%list_elem_of_singleton]; [|done].
        rewrite <- (Hsz u img Hu Hin). split; intros [path Hp]; exists path.
        -- apply elem_of_app in Hp as [Hp|Hp%list_elem_of_singleton]; [done|].
           congruence.
        -- apply elem_of_app. by left.
      * intros u path [Hp|Hp%list_elem_of_singleton]%elem_of_app.
        -- apply elem_of_union. left. by eapply Hsv.
        -- injection Hp as -> _. apply elem_of_union. right.
           by apply elem_of_singleton.
      * intros Hst Hnm Hipf k u path Hk.
        apply lookup_app_Some in Hk as [Hk|[Hlen Hk]]; [by eapply Hpath|].
        apply list_lookup_singleton_Some in Hk as [Hk0 [= <- <-]].
        rewrite (image_filepath_grouped (self w)) by (try done; lia).
        f_equal. lia.
    + destruct Hcase as (Hi' & Hs' & _). rewrite Hi', Hs'.
      assert (¬ big_enough (self w) image) as Hsmall.
      { rewrite <- big_enough_test. by rewrite Htest. }
      split_and!; try done.
      * intros u img Hu Hin. destruct (decide (u = image_url)) as [->|Hne].
        { assert (img = image) as -> by congruence. split; [|done].
          intros [path Hp]. by destruct (Hnosave path). }
        apply elem_of_app in Hin as [Hin|Hin%list_elem_of_singleton]; [|done].
        by apply Hsz.
      * intros u path Hp. apply elem_of_union. left. by eapply Hsv.
  - destruct Hcase as (Hd' & Hi' & Hs' & _). rewrite Hd', Hi', Hs', app_nil_r.
    split_and!; try done.
    intros u img Hu Hin.
    apply elem_of_app in Hin as [Hin|Hin%list_elem_of_singleton]; [|congruence].
    by apply Hsz.
Qed.

(** What a call of [scrape] leaves alone, however it ends. *)
Lemma scrape_keeps max_pages w :
  let w' := (scrape E max_pages w).1 in
  cfg (self w') = cfg (self w)
  ∧ _downloaded (self w') = _downloaded (self w)
  ∧ _downloaded_idx (self w') = _downloaded_idx (self w)
  ∧ fs w' = fs w
  ∧ opens (log w') = opens (log w)
  ∧ saves (log w') = saves (log w).
Proof.
  unfold scrape. destruct (1 <=? max_pages); simpl; [|done].
  pose proof (scrape_loop_trace E (Z.to_nat max_pages) w ∅) as Htrace.
  destruct (scrape_loop E (Z.to_nat max_pages) w ∅) as [w1 [acc|e]]; simpl.
  - destruct Htrace as (visited & (? & ? & ? & ? & ?) & _ & _ & Hlog & _).
    rewrite Hlog, opens_app, saves_app, opens_fmap_get, saves_fmap_get, !app_nil_r.
    done.
  - destruct Htrace as (visited & (? & ? & ? & ? & ?) & _ & _ & url & _ & _ & _ & Hlog & _).
    rewrite Hlog, !opens_app, !saves_app, opens_fmap_get, saves_fmap_get. simpl.
    by rewrite !app_nil_r.
Qed.

Lemma download_inv_scrape max_pages w :
  download_inv E w → download_inv E (scrape E max_pages w).1.
Proof.
  destruct (scrape_keeps max_pages w) as (? & ? & ? & _ & ? & ?).
  by apply download_inv_ext.
Qed.

Lemma download_inv_fresh self disk :
  constructed E self → download_inv E (fresh self disk).
Proof.
  intros (_ & _ & _ & Hd & Hi & _)%constructed_inv.
  unfold download_inv, decoded. simpl. rewrite Hd, Hi, filter_nil.
  split_and!; try done.
  - intros u. by rewrite elem_of_nil, elem_of_empty.
  - apply NoDup_nil_2.
  - by intros u img _ Hu%elem_of_nil.
  - by intros u path Hu%elem_of_nil.
Qed.

(** The downloader's invariant holds after any sequence of calls on a new
    object. *)
Lemma download_inv_run self disk cs :
  constructed E self → download_inv E (run_calls E cs (fresh self disk)).1.
Proof.
  intros Hc. apply run_calls_rule.
  - intros. by apply download_inv_scrape.
  - intros. apply download_rule; [apply download_inv_makedirs|apply download_inv_image|done].
  - by apply download_inv_fresh.
Qed.

(** The configuration never changes. *)
Lemma cfg_run cs w : cfg (self (run_calls E cs w).1) = cfg (self w).
Proof.
  apply (run_calls_rule (λ w', cfg (self w') = cfg (self w))); [| |done].
  - intros mp w1 <-. apply scrape_keeps.
  - intros hm w1 <-.
    apply (download_rule (λ w', cfg (self w') = cfg (self w1))); [done| |done].
    intros w2 u <- _. apply download_image_spec.
Qed.


(** A rule for the properties of the world that do not involve the
    accumulator of [scrape]. *)
Lemma scrape_rule (P : World → Prop) :
  (∀ w url soup,
      P w → url ∈ _unexplored (self w) → requests_get E url = Some soup →
      P (explore E w url soup)) →
  (∀ w url,
      P w → url ∈ _unexplored (self w) → requests_get E url = None →
      P (popped w url)) →
  (∀ w images_urls, P w → P (with_self w (with_images_urls (self w) images_urls))) →
  ∀ max_pages w, P w → P (scrape E max_pages w).1.
Proof.
  intros Hok Hfail Him max_pages w HP. unfold scrape.
  destruct (1 <=? max_pages); simpl; [|done].
  assert (Hrule := scrape_loop_rule E (λ w' _, P w') (λ w' _, P w')
                     (λ w1 _ url soup, Hok w1 url soup) (λ w1 _ url, Hfail w1 url)
                     (Z.to_nat max_pages) w ∅ HP).
  destruct (scrape_loop E (Z.to_nat max_pages) w ∅) as [w1 [acc|e]]; simpl.
  - by apply Him.
  - done.
Qed.

(** What a call of [download] leaves alone, however it ends. *)
Lemma download_keeps how_many w : download_frame w (download E how_many w).1.
Proof.
  apply (download_rule (download_frame w)).
  - intros w1 path (? & ? & ? & ? & Hg). unfold download_frame. simpl.
    rewrite gets_app. simpl. by rewrite app_nil_r.
  - intros w1 u (Hc & He & Hu & Hi & Hg) _.
    destruct (download_image_spec w1 u) as ((Hc' & He' & Hu' & Hi' & Hg') & _).
    unfold download_frame. by rewrite Hc', He', Hu', Hi', Hg'.
  - done.
Qed.

Lemma on_seed_netloc_run self0 disk cs :
  constructed E self0 → on_seed_netloc E (run_calls E cs (fresh self0 disk)).1.
Proof.
  intros Hc. apply run_calls_rule.
  - apply scrape_rule.
    + intros w url soup HP Hin Hget u. simpl.
      intros [[Hu _]%elem_of_difference|Hu]%elem_of_union; [by apply HP|].
      by apply elem_of_extract_unexplored_pages in Hu as (_ & _ & _ & _ & _ & _ & ?).
    + intros w url HP Hin Hget u. simpl.
      intros [Hu _]%elem_of_difference. by apply HP.
    + intros w v HP u. simpl. apply HP.
  - intros hm w HP u.
    destruct (download_keeps hm w) as (Hcfg & _ & Hun & _). rewrite Hcfg, Hun. apply HP.
  - destruct (constructed_inv self0 Hc) as (_ & Hun & _ & _ & _ & Hps & _).
    intros u. simpl. rewrite Hun, Hps. by intros ->%elem_of_singleton.
Qed.

Lemma images_this_call_not_gif (self0 : MegaScraper) visited image_url :
  image_url ∈ images_this_call E self0 visited → Py.endswith image_url ".gif" = false.
Proof.
  unfold images_this_call.
  intros (X & (url & -> & _)%list_elem_of_fmap & Hx)%elem_of_union_list.
  unfold images_of_page in Hx.
  destruct (requests_get E url); [|by apply elem_of_empty in Hx].
  destruct (re_search E _ url); [|by apply elem_of_empty in Hx].
  by eapply extract_images_urls_not_gif.
Qed.

Lemma no_gif_run self0 disk cs :
  constructed E self0 → no_gif (run_calls E cs (fresh self0 disk)).1.
Proof.
  intros Hc. apply run_calls_rule.
  - intros mp w HP u. unfold scrape. destruct (1 <=? mp); simpl; [|apply HP].
    pose proof (scrape_loop_trace E (Z.to_nat mp) w ∅) as Htrace.
    destruct (scrape_loop E (Z.to_nat mp) w ∅) as [w1 [acc|e]]; simpl.
    + destruct Htrace as (visited & (_ & Him & _) & _ & _ & _ & -> & _). rewrite Him.
      intros [Hu|[Hu|Hu]%elem_of_union]%elem_of_union;
        [by apply HP|by apply elem_of_empty in Hu|].
      by eapply images_this_call_not_gif.
    + destruct Htrace as (_ & (_ & -> & _) & _). apply HP.
  - intros hm w HP u.
    destruct (download_keeps hm w) as (_ & _ & _ & Him & _). rewrite Him. apply HP.
  - destruct (constructed_inv self0 Hc) as (_ & _ & Him & _).
    intros u. simpl. rewrite Him. by intros ?%elem_of_empty.
Qed.

(** C4, as the code has it.  A link is kept by the extractor only if the
    network location of its resolved URL is the seed's and it is not in
    [_explored]; so, after any sequence of calls on a new object, no URL
    whose network location differs from the seed's is in [_unexplored].
    The scheme is not compared. *)
Theorem links_kept_on_seed_netloc self0 disk cs :
  constructed E self0 →
  (∀ (obj : MegaScraper) soup href,
      href ∈ _extract_unexplored_pages E obj soup →
      netloc (urlparse E href) = netloc (_parsed_seed obj)
      ∧ (href ∉ _explored obj))
  ∧ ∀ url, url ∈ _unexplored (self (run_calls E cs (fresh self0 disk)).1) →
           netloc (urlparse E url) = netloc (_parsed_seed self0).
Proof.
  intros Hc. split.
  - by intros obj soup href
      (_ & _ & _ & _ & _ & ? & ?)%elem_of_extract_unexplored_pages.
  - intros url Hin. pose proof (cfg_run cs (fresh self0 disk)) as Hcfg.
    simpl in Hcfg. rewrite <- Hcfg. by apply on_seed_netloc_run.
Qed.

(** C9. An image element whose source ends in [.gif] adds nothing to the
    set the extractor builds, whatever the image regex; and after any
    sequence of calls on a new object no URL of [_images_urls] ends in
    [.gif]. *)
Theorem gif_sources_never_discovered self0 disk cs :
  constructed E self0 →
  (∀ (obj : MegaScraper) images_urls element src,
      Py.truthy (get element "src") = Some src →
      Py.endswith src ".gif" = true →
      add_image_url E obj images_urls element = images_urls)
  ∧ ∀ image_url,
      image_url ∈ _images_urls (self (run_calls E cs (fresh self0 disk)).1) →
      Py.endswith image_url ".gif" = false.
Proof.
  intros Hc. split.
  - intros obj images_urls element src Hsrc Hgif. unfold add_image_url.
    by rewrite Hsrc, Hgif.
  - by apply no_gif_run.
Qed.


(** C7. With the grouped layout and numerical names, after any sequence of
    calls on a new object the [n]-th saved image is at
    [output_folderpath/FOLDER/n.jpg], where [FOLDER] is
    [floor((n - 1) / images_per_folder) + folder_initial_num] padded with
    zeros to four characters; with 100 images per folder and first
    folder 1, the images 1 to 100 are [0001/1.jpg] to [0001/100.jpg] and
    image 101 is [0002/101.jpg].  Images skipped for their size are not
    saved, so they do not count. *)
Theorem grouped_numerical_layout self0 disk cs n image_url path :
  constructed E self0 →
  _output_structure self0 = grouped →
  _output_naming self0 = numerical →
  nth_saved (run_calls E cs (fresh self0 disk)).1 n = Some (image_url, path) →
  path
  = Py.path_join
      (Py.path_join (_output_folderpath self0)
         (Py.zfill 4 (Py.str ((Z.of_nat n - 1) `div` _images_per_folder self0
                              + _folder_initial_num self0))))
      (Py.str (Z.of_nat n) +:+ ".jpg")
  ∧ (_images_per_folder self0 = 100 → _folder_initial_num self0 = 1 →
     ((1 ≤ n ≤ 100)%nat →
      path = Py.path_join (Py.path_join (_output_folderpath self0) "0001")
               (Py.str (Z.of_nat n) +:+ ".jpg"))
     ∧ (n = 101%nat →
        path = Py.path_join (Py.path_join (_output_folderpath self0) "0002")
                 "101.jpg")).
Proof.
  intros Hc Hst Hnm Hnth.
  destruct (download_inv_run self0 disk cs Hc) as (_ & _ & _ & _ & _ & Hpath).
  pose proof (cfg_run cs (fresh self0 disk)) as Hcfg. simpl in Hcfg.
  destruct (constructed_inv self0 Hc) as (_ & _ & _ & _ & _ & _ & Hipf & _).
  destruct n as [|k]; [done|]. simpl in Hnth.
  apply Hpath in Hnth; [|by rewrite Hcfg..].
  unfold grouped_path in Hnth. rewrite Hcfg in Hnth.
  replace (Z.of_nat k + 1) with (Z.of_nat (S k)) in Hnth by lia.
  split; [done|]. intros H100 H1. rewrite H100, H1 in Hnth. split.
  - intros Hn. rewrite Z.div_small in Hnth by lia. done.
  - intros Hn. by rewrite Hn in Hnth.
Qed.


End Calls.

(** ** What a crawl discovers *)

Section Crawl.

Variable E : Env.

Lemma extract_unexplored_pages_as_links (self0 : MegaScraper) w url soup :
  cfg (self w) = cfg self0 →
  requests_get E url = Some soup →
  _extract_unexplored_pages E (self w) soup
  = links E self0 url ∖ _explored (self w).
Proof.
  intros Hc Hget.
  rewrite extract_unexplored_pages_links, (links_cfg E self0 (self w)) by done.
  unfold links. by rewrite Hget.
Qed.

Lemma crawl_inv_explore self0 w acc url soup :
  crawl_inv E self0 w acc →
  url ∈ _unexplored (self w) →
  requests_get E url = Some soup →
  crawl_inv E self0 (explore E w url soup) (acc ∪ images_of_page E (self w) url).
Proof.
  intros (Hc & Hseed & Hreach & Hclosed & Hfetch & Himg) Hin Hget.
  pose proof (extract_unexplored_pages_as_links self0 w url soup Hc Hget) as Hlinks.
  unfold crawl_inv. simpl. rewrite Hlinks. split_and!.
  - done.
  - apply elem_of_union in Hseed as [Hs|Hs].
    + apply elem_of_union. left. apply elem_of_union. by left.
    + destruct (decide (_seed self0 = url)) as [->|Hne].
      * apply elem_of_union. left. apply elem_of_union. right.
        by apply elem_of_singleton.
      * apply elem_of_union. right. apply elem_of_union. left.
        apply elem_of_difference. by rewrite elem_of_singleton.
  - intros u [[Hu| ->%elem_of_singleton]%elem_of_union
             |[[Hu _]%elem_of_difference|[Hu _]%elem_of_difference]%elem_of_union
             ]%elem_of_union.
    + apply Hreach, elem_of_union. by left.
    + apply Hreach, elem_of_union. by right.
    + apply Hreach, elem_of_union. by right.
    + apply (reach_link E self0 url); [|done]. apply Hreach, elem_of_union. by right.
  - intros u Hu x Hx.
    assert (x ∈ _explored (self w) ∪ _unexplored (self w) ∨ x ∈ links E self0 url)
      as Hcase.
    { apply elem_of_union in Hu as [Hu| ->%elem_of_singleton]; [left|by right].
      by apply (Hclosed u). }
    destruct (decide (x ∈ _explored (self w))) as [He|He].
    { apply elem_of_union. left. apply elem_of_union. by left. }
    destruct (decide (x = url)) as [->|Hne].
    { apply elem_of_union. left. apply elem_of_union. right.
      by apply elem_of_singleton. }
    apply elem_of_union. right.
    destruct Hcase as [[Hx'|Hx']%elem_of_union|Hx']; [done| |].
    + apply elem_of_union. left. apply elem_of_difference.
      by rewrite elem_of_singleton.
    + apply elem_of_union. right. by apply elem_of_difference.
  - intros u [Hu| ->%elem_of_singleton]%elem_of_union; [by apply Hfetch|by eexists].
  - intros i. rewrite (images_of_page_cfg E (self w) self0) by done.
    rewrite (assoc_L (∪)), elem_of_union, Himg. split.
    + intros [(u & Hu & Hi)|Hi].
      * exists u. split; [|done]. apply elem_of_union. by left.
      * exists url. split; [|done]. apply elem_of_union. right.
        by apply elem_of_singleton.
    + intros (u & [Hu| ->%elem_of_singleton]%elem_of_union & Hi); [left|by right].
      by exists u.
Qed.

Lemma crawl_inv_scrape self0 max_pages w w' new_images_urls :
  crawl_inv E self0 w ∅ →
  scrape E max_pages w = (w', Ok new_images_urls) →
  crawl_inv E self0 w' ∅.
Proof.
  intros Hinv. unfold scrape. destruct (1 <=? max_pages); simpl; [|done].
  assert (Hrule := scrape_loop_rule E (crawl_inv E self0) (λ _ _, True)
                     (crawl_inv_explore self0) (λ _ _ _ _ _ _, I)
                     (Z.to_nat max_pages) w ∅ Hinv).
  destruct (scrape_loop E (Z.to_nat max_pages) w ∅) as [w1 [acc|e]]; [|done].
  intros [= <- _]. destruct Hrule as (? & ? & ? & ? & ? & Himg).
  unfold crawl_inv. simpl. split_and!; try done.
  intros i. by rewrite (right_id_L ∅ (∪)).
Qed.

Lemma crawl_inv_download self0 how_many w :
  crawl_inv E self0 w ∅ → crawl_inv E self0 (download E how_many w).1 ∅.
Proof.
  destruct (download_keeps E how_many w) as (Hc & He & Hu & Hi & _).
  unfold crawl_inv. by rewrite Hc, He, Hu, Hi.
Qed.

Lemma crawl_inv_run self0 cs w w' os :
  crawl_inv E self0 w ∅ →
  run_calls E cs w = (w', os) →
  Forall scrape_ok os →
  crawl_inv E self0 w' ∅.
Proof.
  revert w w' os. induction cs as [|c cs IH]; intros w w' os Hinv Hrun Hok.
  { simpl in Hrun. by injection Hrun as <- _. }
  simpl in Hrun. destruct c as [max_pages|how_many]; simpl in Hrun.
  - destruct (scrape E max_pages w) as [w1 r] eqn:Hs.
    destruct (run_calls E cs w1) as [w2 os2] eqn:Hr. injection Hrun as <- <-.
    apply Forall_cons in Hok as [Hok1 Hok]. destruct r as [s|e]; [|done].
    apply (IH w1 w2 os2); [|done..]. by eapply crawl_inv_scrape.
  - pose proof (crawl_inv_download self0 how_many w Hinv) as Hinv1.
    destruct (download E how_many w) as [w1 r] eqn:Hd.
    destruct (run_calls E cs w1) as [w2 os2] eqn:Hr. injection Hrun as <- <-.
    apply Forall_cons in Hok as [_ Hok]. by apply (IH w1 w2 os2).
Qed.

Lemma crawl_inv_fresh (self0 : MegaScraper) disk :
  _explored self0 = ∅ → _unexplored self0 = {[_seed self0]} → _images_urls self0 = ∅ →
  crawl_inv E self0 (fresh self0 disk) ∅.
Proof.
  intros He Hu Hi. unfold crawl_inv. simpl. rewrite He, Hu, Hi. split_and!.
  - done.
  - apply elem_of_union. right. by apply elem_of_singleton.
  - intros u [Hx%elem_of_empty| ->%elem_of_singleton]%elem_of_union; [done|].
    apply reach_seed.
  - by intros u Hx%elem_of_empty.
  - by intros u Hx%elem_of_empty.
  - intros i. rewrite (right_id_L ∅ (∪)). split; [by intros Hx%elem_of_empty|].
    by intros (u & Hx%elem_of_empty & _).
Qed.

(** Once nothing is left to explore, the explored pages are the reachable
    ones and the discovered images are those of the reachable pages. *)
Lemma crawl_inv_done self0 w :
  crawl_inv E self0 w ∅ →
  _unexplored (self w) = ∅ →
  (∀ url, url ∈ _explored (self w) ↔ reach E self0 url)
  ∧ (∀ image_url,
       image_url ∈ _images_urls (self w)
       ↔ ∃ url, reach E self0 url ∧ image_url ∈ images_of_page E self0 url).
Proof.
  intros (_ & Hseed & Hreach & Hclosed & _ & Himg) Hdone.
  rewrite Hdone in *. setoid_rewrite (right_id_L ∅ (∪)) in Hseed.
  setoid_rewrite (right_id_L ∅ (∪)) in Hreach.
  setoid_rewrite (right_id_L ∅ (∪)) in Hclosed.
  setoid_rewrite (right_id_L ∅ (∪)) in Himg.
  assert (Hex : ∀ url, url ∈ _explored (self w) ↔ reach E self0 url).
  { intros url. split; [apply Hreach|].
    induction 1 as [|u v _ IH Hv]; [done|]. by apply (Hclosed u). }
  split; [done|]. intros i. rewrite Himg. by setoid_rewrite Hex.
Qed.

Lemma disjoint_explore self0 w url soup :
  no_self_link E self0 →
  cfg (self w) = cfg self0 →
  _explored (self w) ∩ _unexplored (self w) = ∅ →
  requests_get E url = Some soup →
  (url ∉ _unexplored (self (explore E w url soup)))
  ∧ _explored (self (explore E w url soup))
    ∩ _unexplored (self (explore E w url soup)) = ∅.
Proof.
  intros Hno Hc Hdis Hget. simpl.
  rewrite (extract_unexplored_pages_as_links self0 w url soup Hc Hget).
  specialize (Hno url). split; [set_solver|].
  apply set_eq. intros x. split; [|by intros Hx%elem_of_empty].
  assert (x ∉ _explored (self w) ∩ _unexplored (self w)) as Hx by (by rewrite Hdis).
  set_solver.
Qed.

Lemma disjoint_popped w url :
  _explored (self w) ∩ _unexplored (self w) = ∅ →
  (url ∉ _unexplored (self (popped w url)))
  ∧ _explored (self (popped w url)) ∩ _unexplored (self (popped w url)) = ∅.
Proof. simpl. set_solver. Qed.

Lemma disjoint_run self0 disk cs :
  constructed E self0 → no_self_link E self0 →
  let w := (run_calls E cs (fresh self0 disk)).1 in
  cfg (self w) = cfg self0 ∧ _explored (self w) ∩ _unexplored (self w) = ∅.
Proof.
  intros Hc Hno.
  set (P := λ w : World,
    cfg (self w) = cfg self0 ∧ _explored (self w) ∩ _unexplored (self w) = ∅).
  apply (run_calls_rule E P).
  - apply (scrape_rule E P).
    + intros w url soup [Hcfg Hdis] _ Hget. split; [done|].
      by apply (disjoint_explore self0).
    + intros w url [Hcfg Hdis] _ _. split; [done|]. by apply disjoint_popped.
    + by intros w v [Hcfg Hdis].
  - intros hm w [Hcfg Hdis]. unfold P.
    destruct (download_keeps E hm w) as (Hc' & He & Hu & _). by rewrite Hc', He, Hu.
  - destruct (constructed_inv E self0 Hc) as (He & _). split; [done|]. simpl.
    rewrite He. set_solver.
Qed.

(** The pages fetched are the explored ones, each fetched once, as long as
    no page links to itself and no fetch fails. *)
Lemma pages_fetched_once_without_self_links self0 disk cs w os :
  constructed E self0 → no_self_link E self0 →
  run_calls E cs (fresh self0 disk) = (w, os) →
  Forall scrape_ok os →
  NoDup (gets (log w)) ∧ ∀ url, url ∈ gets (log w) ↔ url ∈ _explored (self w).
Proof.
  intros Hc Hno.
  set (P := λ w : World,
    (cfg (self w) = cfg self0 ∧ _explored (self w) ∩ _unexplored (self w) = ∅)
    ∧ NoDup (gets (log w))
    ∧ ∀ url, url ∈ gets (log w) ↔ url ∈ _explored (self w)).
  assert (Hstep : ∀ w url soup,
             P w → url ∈ _unexplored (self w) → requests_get E url = Some soup →
             P (explore E w url soup)).
  { intros w1 url soup ([Hcfg Hdis] & Hnd & Hget) Hin Hpage.
    assert (url ∉ _explored (self w1)) as Hnew.
    { intros He. apply (not_elem_of_empty (C := gset string) url).
      rewrite <- Hdis. by apply elem_of_intersection. }
    split_and!; [done|by apply (disjoint_explore self0)|..]; simpl; rewrite gets_app.
    - apply NoDup_app. split; [done|]. split; [|apply NoDup_singleton].
      intros u Hu ->%list_elem_of_singleton. by apply Hnew, Hget.
    - intros u. rewrite elem_of_app, elem_of_union, Hget. simpl.
      by rewrite list_elem_of_singleton, elem_of_singleton. }
  assert (Hscrape : ∀ max_pages w w' s,
             P w → scrape E max_pages w = (w', Ok s) → P w').
  { intros max_pages w1 w2 s HP. unfold scrape.
    destruct (1 <=? max_pages); simpl; [|done].
    assert (Hrule := scrape_loop_rule E (λ w' _, P w') (λ _ _, True)
                       (λ w1 _ url soup, Hstep w1 url soup) (λ _ _ _ _ _ _, I)
                       (Z.to_nat max_pages) w1 ∅ HP).
    destruct (scrape_loop E (Z.to_nat max_pages) w1 ∅) as [w3 [acc|e]]; [|done].
    by intros [= <- _]. }
  assert (Hdownload : ∀ how_many w, P w → P (download E how_many w).1).
  { intros hm w1 ([Hcfg Hdis] & Hnd & Hget). unfold P.
    destruct (download_keeps E hm w1) as (Hc' & He & Hu & _ & Hg).
    by rewrite Hc', He, Hu, Hg. }
  assert (Hrun : ∀ cs w w' os,
             P w → run_calls E cs w = (w', os) → Forall scrape_ok os → P w').
  { clear cs w os. induction cs as [|c cs IH]; intros w w' os HP Hrun Hok.
    { simpl in Hrun. by injection Hrun as <- _. }
    simpl in Hrun. destruct c as [max_pages|how_many]; simpl in Hrun.
    - destruct (scrape E max_pages w) as [w1 r] eqn:Hs.
      destruct (run_calls E cs w1) as [w2 os2] eqn:Hr. injection Hrun as <- <-.
      apply Forall_cons in Hok as [Hok1 Hok]. destruct r as [s|e]; [|done].
      apply (IH w1 w2 os2); [|done..]. by eapply Hscrape.
    - pose proof (Hdownload how_many w HP) as HP1.
      destruct (download E how_many w) as [w1 r] eqn:Hd.
      destruct (run_calls E cs w1) as [w2 os2] eqn:Hr. injection Hrun as <- <-.
      apply Forall_cons in Hok as [_ Hok]. by apply (IH w1 w2 os2). }
  intros Hrun' Hok. apply (Hrun cs (fresh self0 disk) w os); [|done..].
  destruct (constructed_inv E self0 Hc) as (He & _). unfold P. simpl. rewrite He.
  split_and!; [done|set_solver|apply NoDup_nil_2|].
  intros u. by rewrite elem_of_nil, elem_of_empty.
Qed.

(** C2, for the sites on which the code keeps it.  When no page links to
    itself, after any sequence of calls on a new object (hence also
    between the turns of the loop of [scrape]) [_explored] and
    [_unexplored] are disjoint; the next turn of the loop takes its URL out
    of [_unexplored] and adds it to [_explored] if the fetch succeeds, and
    to nothing if the fetch fails. *)
Theorem explored_unexplored_disjoint self0 disk cs images_urls :
  constructed E self0 → no_self_link E self0 →
  let w := (run_calls E cs (fresh self0 disk)).1 in
  _explored (self w) ∩ _unexplored (self w) = ∅
  ∧ (_unexplored (self w) ≠ ∅ →
     ∃ url, url ∈ _unexplored (self w)
            ∧ (url ∉ _unexplored (self (scrape_iteration E w images_urls).1))
            ∧ _explored (self (scrape_iteration E w images_urls).1)
              ∩ _unexplored (self (scrape_iteration E w images_urls).1) = ∅
            ∧ _explored (self (scrape_iteration E w images_urls).1)
              = match (scrape_iteration E w images_urls).2 with
                | Ok _ => _explored (self w) ∪ {[url]}
                | Raise _ => _explored (self w)
                end).
Proof.
  intros Hc Hno w. destruct (disjoint_run self0 disk cs Hc Hno) as [Hcfg Hdis].
  fold w in Hcfg, Hdis. split; [done|]. intros Hne.
  destruct (scrape_iteration_cases E w images_urls Hne) as (url & Hin & Hit).
  exists url. split; [done|].
  destruct (requests_get E url) as [soup|] eqn:Hget; rewrite Hit.
  - destruct (disjoint_explore self0 w url soup Hno Hcfg Hdis Hget). by split_and!.
  - destruct (disjoint_popped w url Hdis). by split_and!.
Qed.

(** The measure that bounds the turns of the loop: an unexplored page
    costs two turns at most (one more when it links to itself). *)
Lemma frontier_measure_decreases (R explored unexplored L : gset string) url :
  url ∈ unexplored → url ∈ R →
  (2 * size (R ∖ (explored ∪ {[url]}))
   + size ((unexplored ∖ {[url]} ∪ L ∖ explored) ∩ (explored ∪ {[url]}))
   < 2 * size (R ∖ explored) + size (unexplored ∩ explored))%nat.
Proof.
  intros Hu HR. destruct (decide (url ∈ explored)) as [He|He].
  - replace (explored ∪ {[url]}) with explored by set_solver.
    replace ((unexplored ∖ {[url]} ∪ L ∖ explored) ∩ explored)
      with ((unexplored ∩ explored) ∖ {[url]}) by set_solver.
    rewrite (size_difference (unexplored ∩ explored) {[url]}) by set_solver.
    rewrite size_singleton.
    assert (1 ≤ size (unexplored ∩ explored))%nat.
    { rewrite <- (size_singleton (C := gset string) url).
      apply subseteq_size. set_solver. }
    lia.
  - replace (R ∖ (explored ∪ {[url]})) with ((R ∖ explored) ∖ {[url]}) by set_solver.
    rewrite (size_difference (R ∖ explored) {[url]}) by set_solver.
    rewrite size_singleton.
    assert (1 ≤ size (R ∖ explored))%nat.
    { rewrite <- (size_singleton (C := gset string) url).
      apply subseteq_size. set_solver. }
    assert (size ((unexplored ∖ {[url]} ∪ L ∖ explored) ∩ (explored ∪ {[url]}))
            ≤ size (unexplored ∩ explored) + 1)%nat.
    { etrans; [apply (subseteq_size _ ((unexplored ∩ explored) ∪ {[url]}));
               set_solver|].
      rewrite size_union_alt. apply Nat.add_le_mono_l.
      rewrite <- (size_singleton (C := gset string) url).
      apply subseteq_size. set_solver. }
    lia.
Qed.

(** With a budget above the measure and a site whose reachable pages are
    finitely many and can all be fetched, the loop of [scrape] returns with
    nothing left to explore. *)
Lemma scrape_loop_exhausts self0 (R : gset string) n w acc :
  (∀ url, reach E self0 url → url ∈ R) →
  (∀ url, url ∈ R → is_Some (requests_get E url)) →
  crawl_inv E self0 w acc →
  (2 * size (R ∖ _explored (self w))
   + size (_unexplored (self w) ∩ _explored (self w)) < n)%nat →
  ∃ w' acc', scrape_loop E n w acc = (w', Ok acc')
             ∧ _unexplored (self w') = ∅
             ∧ crawl_inv E self0 w' acc'.
Proof.
  intros HR Hfetch. revert w acc.
  induction n as [|n IH]; intros w acc Hinv Hlt; [lia|]. simpl.
  case_bool_decide as Hne; [by exists w, acc|].
  destruct (scrape_iteration_cases E w acc Hne) as (url & Hin & Hit).
  assert (url ∈ R) as HinR.
  { apply HR. destruct Hinv as (_ & _ & Hreach & _). apply Hreach.
    apply elem_of_union. by right. }
  destruct (Hfetch url HinR) as [soup Hget]. rewrite Hget in Hit. rewrite Hit.
  apply IH; [by apply crawl_inv_explore|]. simpl.
  pose proof (frontier_measure_decreases R (_explored (self w)) (_unexplored (self w))
                (links E self0 url) url Hin HinR) as Hdec.
  destruct Hinv as (Hc & _).
  rewrite (extract_unexplored_pages_as_links self0 w url soup Hc Hget). lia.
Qed.

End Crawl.

(** ** Two crawls of one site *)

Lemma same_site_sym E1 E2 : same_site E1 E2 → same_site E2 E1.
Proof. intros (Hp & Hr & Hg). by split_and!. Qed.

Lemma same_site_extract_unexplored_pages E1 E2 self0 soup :
  same_site E1 E2 →
  _extract_unexplored_pages E1 self0 soup = _extract_unexplored_pages E2 self0 soup.
Proof.
  intros (Hp & _). apply set_eq. intros x.
  rewrite !elem_of_extract_unexplored_pages. by rewrite (Hp x).
Qed.

Lemma same_site_links E1 E2 self0 url :
  same_site E1 E2 → links E1 self0 url = links E2 self0 url.
Proof.
  intros Hsame. unfold links. destruct Hsame as (Hp & Hr & Hg) eqn:Heq.
  rewrite (Hg url). destruct (requests_get E2 url); [|done].
  by apply same_site_extract_unexplored_pages.
Qed.

Lemma same_site_images_of_page E1 E2 self0 url :
  same_site E1 E2 → images_of_page E1 self0 url = images_of_page E2 self0 url.
Proof.
  intros (Hp & Hr & Hg). unfold images_of_page.
  rewrite (Hg url), (Hr (_regex_pages self0) url).
  destruct (requests_get E2 url) as [soup|]; [|done].
  destruct (re_search E2 (_regex_pages self0) url); [|done].
  apply set_eq. intros x. rewrite !elem_of_extract_images_urls.
  by rewrite (Hr (_regex_images self0) x).
Qed.

Lemma same_site_reach E1 E2 self0 url :
  same_site E1 E2 → reach E1 self0 url → reach E2 self0 url.
Proof.
  intros Hsame. induction 1 as [|u v _ IH Hv]; [apply reach_seed|].
  apply (reach_link E2 self0 u); [done|]. by rewrite <- (same_site_links E1 E2).
Qed.

Section Deltas.

Variable E : Env.

(** A call of [scrape] adds to [_images_urls] what it returns. *)
Lemma scrape_images_urls max_pages w :
  _images_urls (self (scrape E max_pages w).1)
  = _images_urls (self w)
    ∪ match (scrape E max_pages w).2 with
      | Ok new_images_urls => new_images_urls
      | Raise _ => ∅
      end.
Proof.
  unfold scrape. destruct (1 <=? max_pages); simpl; [|by rewrite (right_id_L ∅ (∪))].
  pose proof (scrape_loop_trace E (Z.to_nat max_pages) w ∅) as Htrace.
  destruct (scrape_loop E (Z.to_nat max_pages) w ∅) as [w1 [acc|e]]; simpl;
    destruct Htrace as (_ & (_ & -> & _) & _); [|by rewrite (right_id_L ∅ (∪))].
  apply set_eq. intros x. rewrite !elem_of_union, elem_of_difference.
  destruct (decide (x ∈ _images_urls (self w))); tauto.
Qed.

(** The union of the sets returned in a sequence of calls is what the
    sequence added to [_images_urls]. *)
Lemma run_calls_images_urls cs w :
  _images_urls (self (run_calls E cs w).1)
  = _images_urls (self w) ∪ ⋃ (scraped_sets (run_calls E cs w).2).
Proof.
  revert w. induction cs as [|c cs IH]; intros w; simpl.
  { by rewrite (right_id_L ∅ (∪)). }
  destruct c as [max_pages|how_many]; simpl.
  - pose proof (scrape_images_urls max_pages w) as Hs.
    destruct (scrape E max_pages w) as [w1 r]. simpl in Hs.
    specialize (IH w1). destruct (run_calls E cs w1) as [w2 os]. simpl in *.
    rewrite IH, Hs. destruct r as [new|e]; simpl.
    + by rewrite (assoc_L (∪)).
    + by rewrite (right_id_L ∅ (∪)).
  - destruct (download_keeps E how_many w) as (_ & _ & _ & Hi & _).
    destruct (download E how_many w) as [w1 r]. simpl in Hi.
    specialize (IH w1). destruct (run_calls E cs w1) as [w2 os]. simpl in *.
    by rewrite IH, Hi.
Qed.

End Deltas.

(** C8. Take calls of [scrape] (with calls of [download] in between, if
    any) on a new object, none of which raised, after which nothing is left
    to explore.  The union of the sets they returned is [_images_urls].  A
    single call of [scrape] on a new object for the same site, whatever the
    elements [set.pop] removes, that leaves nothing to explore returns that
    same set and leaves it in [_images_urls]; and every budget above twice
    the number of explored pages makes the single call do so. *)
Theorem discovery_independent_of_calls E1 E2 self0 disk1 disk2 cs w1 os :
  same_site E1 E2 →
  constructed E1 self0 →
  run_calls E1 cs (fresh self0 disk1) = (w1, os) →
  Forall scrape_ok os →
  _unexplored (self w1) = ∅ →
  ⋃ (scraped_sets os) = _images_urls (self w1)
  ∧ (∀ max_pages w2 s2,
       scrape E2 max_pages (fresh self0 disk2) = (w2, Ok s2) →
       _unexplored (self w2) = ∅ →
       s2 = _images_urls (self w1) ∧ _images_urls (self w2) = _images_urls (self w1))
  ∧ (∀ max_pages,
       2 * Z.of_nat (size (_explored (self w1))) < max_pages →
       ∃ w2 s2, scrape E2 max_pages (fresh self0 disk2) = (w2, Ok s2)
                ∧ _unexplored (self w2) = ∅).
Proof.
  intros Hsame Hc Hrun Hok Hdone.
  destruct (constructed_inv E1 self0 Hc) as (He0 & Hu0 & Hi0 & _).
  pose proof (crawl_inv_run E1 self0 cs _ w1 os
                (crawl_inv_fresh E1 self0 disk1 He0 Hu0 Hi0) Hrun Hok) as Hinv1.
  destruct (crawl_inv_done E1 self0 w1 Hinv1 Hdone) as (Hex1 & Him1).
  pose proof (crawl_inv_fresh E2 self0 disk2 He0 Hu0 Hi0) as Hinv0.
  split_and!.
  - pose proof (run_calls_images_urls E1 cs (fresh self0 disk1)) as Hsum.
    rewrite Hrun in Hsum. simpl in Hsum. by rewrite Hsum, Hi0, (left_id_L ∅ (∪)).
  - intros max_pages w2 s2 Hs2 Hdone2.
    pose proof (crawl_inv_scrape E2 self0 max_pages _ w2 s2 Hinv0 Hs2) as Hinv2.
    destruct (crawl_inv_done E2 self0 w2 Hinv2 Hdone2) as (_ & Him2).
    assert (_images_urls (self w2) = _images_urls (self w1)) as Heq.
    { apply set_eq. intros i. rewrite Him1, Him2. split; intros (u & Hu & Hi).
      - exists u. split; [by apply (same_site_reach E2 E1), Hu; apply same_site_sym|].
        by rewrite (same_site_images_of_page E1 E2).
      - exists u. split; [by apply (same_site_reach E1 E2)|].
        by rewrite <- (same_site_images_of_page E1 E2). }
    split; [|done]. rewrite <- Heq.
    pose proof (scrape_images_urls E2 max_pages (fresh self0 disk2)) as Hsum.
    rewrite Hs2 in Hsum. simpl in Hsum. by rewrite Hsum, Hi0, (left_id_L ∅ (∪)).
  - intros max_pages Hbudget.
    destruct (scrape_loop_exhausts E2 self0 (_explored (self w1))
                (Z.to_nat max_pages) (fresh self0 disk2) ∅)
      as (w2 & acc & Hloop & Hdone2 & _).
    + intros u Hu. apply Hex1, (same_site_reach E2 E1); [by apply same_site_sym|done].
    + intros u Hu. destruct Hsame as (_ & _ & Hg). rewrite <- Hg.
      destruct Hinv1 as (_ & _ & _ & _ & Hfetch & _). by apply Hfetch.
    + done.
    + simpl. rewrite He0, Hu0.
      replace ({[_seed self0]} ∩ ∅ : gset string) with (∅ : gset string) by set_solver.
      rewrite difference_empty_L, size_empty. lia.
    + unfold scrape. destruct (1 <=? max_pages) eqn:Hle; [|lia]. simpl.
      rewrite Hloop. by eexists _, _.
Qed.

(** ** The methods on concrete sites *)

(** C1 on the site whose page links to itself: two calls of [scrape] fetch
    the seed twice. *)
Lemma self_link_page_fetched_twice :
  gets (log (run_calls Demo.loop_env [Scrape 1; Scrape 1] Demo.loop_start).1)
  = ["http://a.com/"; "http://a.com/"]%string.
Proof. vm_compute. reflexivity. Qed.

(** C2 on the same site: after one call the seed is both explored and
    unexplored. *)
Lemma self_link_page_explored_and_unexplored :
  let w := (scrape Demo.loop_env 1 Demo.loop_start).1 in
  _explored (self w) ∩ _unexplored (self w) = {["http://a.com/"%string]}.
Proof. vm_compute. reflexivity. Qed.

(** C2 fails as stated: the page the seed links to cannot be fetched; the
    turn of the loop that pops its URL takes it out of [_unexplored] and
    does not add it to [_explored]. *)
Lemma failed_fetch_leaves_url_in_neither_set :
  let w := (scrape Demo.broken_env 1 Demo.broken_start).1 in
  let w' := (scrape_iteration Demo.broken_env w ∅).1 in
  "http://a.com/b"%string ∈ _unexplored (self w)
  ∧ (scrape_iteration Demo.broken_env w ∅).2 = Raise (FetchError "http://a.com/b")
  ∧ ("http://a.com/b"%string ∉ _unexplored (self w'))
  ∧ ("http://a.com/b"%string ∉ _explored (self w')).
Proof. split_and!; first [vm_compute; reflexivity | compute_done]. Qed.

Lemma explored_unexplored_disjoint_witness :
  let w := (run_calls Demo.broken_env [Scrape 1] (fresh (self Demo.broken_start) ∅)).1 in
  _explored (self w) ∩ _unexplored (self w) = ∅
  ∧ (_unexplored (self w) ≠ ∅ →
     ∃ url, url ∈ _unexplored (self w)
            ∧ (url ∉ _unexplored (self (scrape_iteration Demo.broken_env w ∅).1))
            ∧ _explored (self (scrape_iteration Demo.broken_env w ∅).1)
              ∩ _unexplored (self (scrape_iteration Demo.broken_env w ∅).1) = ∅
            ∧ _explored (self (scrape_iteration Demo.broken_env w ∅).1)
              = match (scrape_iteration Demo.broken_env w ∅).2 with
                | Ok _ => _explored (self w) ∪ {[url]}
                | Raise _ => _explored (self w)
                end).
Proof.
  apply (explored_unexplored_disjoint Demo.broken_env (self Demo.broken_start) ∅
           [Scrape 1] ∅).
  - demo_constructed.
  - intros url. unfold links. simpl.
    destruct (Demo.broken_site !! url) as [soup|] eqn:Hpage; [|apply not_elem_of_empty].
    unfold Demo.broken_site in Hpage.
    apply lookup_singleton_Some in Hpage as [<- <-]. compute_done.
Defined.

(** C3 fails as stated: the seed is visited and has an image, the fetch of
    the page it links to fails; the image is not in [_images_urls], the
    failing page is neither explored nor unexplored, and a further call
    has nothing to do. *)
Lemma fetch_failure_drops_images_and_page :
  let w' := (scrape Demo.broken_env 2 Demo.broken_start).1 in
  (scrape Demo.broken_env 2 Demo.broken_start).2 = Raise (FetchError "http://a.com/b")
  ∧ "http://a.com/"%string ∈ _explored (self w')
  ∧ "http://a.com/foo.png"%string
    ∈ images_of_page Demo.broken_env (self Demo.broken_start) "http://a.com/"
  ∧ ("http://a.com/foo.png"%string ∉ _images_urls (self w'))
  ∧ ("http://a.com/b"%string ∉ _explored (self w') ∪ _unexplored (self w'))
  ∧ scrape Demo.broken_env 5 w' = (w', Ok ∅).
Proof. split_and!; first [vm_compute; reflexivity | compute_done]. Qed.

Lemma scrape_fetch_failure_witness :
  requests_get Demo.broken_env "http://a.com/b" = None
  ∧ ∃ visited,
      log (scrape Demo.broken_env 2 Demo.broken_start).1
      = log Demo.broken_start ++ (EvGet <$> visited) ++ [EvGet "http://a.com/b"]
      ∧ _explored (self (scrape Demo.broken_env 2 Demo.broken_start).1)
        = _explored (self Demo.broken_start) ∪ list_to_set visited
      ∧ (∀ page, page ∈ visited →
           links Demo.broken_env (self Demo.broken_start) page
           ⊆ _explored (self (scrape Demo.broken_env 2 Demo.broken_start).1)
             ∪ _unexplored (self (scrape Demo.broken_env 2 Demo.broken_start).1)
             ∪ {["http://a.com/b"%string]})
      ∧ ("http://a.com/b"%string
         ∉ _unexplored (self (scrape Demo.broken_env 2 Demo.broken_start).1))
      ∧ _images_urls (self (scrape Demo.broken_env 2 Demo.broken_start).1)
        = _images_urls (self Demo.broken_start)
      ∧ scrape_frame Demo.broken_start (scrape Demo.broken_env 2 Demo.broken_start).1.
Proof.
  apply (scrape_fetch_failure Demo.broken_env Demo.broken_start 2).
  vm_compute. reflexivity.
Defined.

(** C4 fails as stated: on an [https] seed, a link to the same host over
    [http] is kept and enters [_unexplored], though its scheme differs. *)
Lemma http_link_kept_on_https_seed :
  "http://a.com/x"%string
  ∈ _extract_unexplored_pages Demo.mixed_env (self Demo.mixed_start) Demo.mixed_page
  ∧ "http://a.com/x"%string
    ∈ _unexplored (self (scrape Demo.mixed_env 1 Demo.mixed_start).1)
  ∧ ¬ same_origin Demo.mixed_env (self Demo.mixed_start) "http://a.com/x".
Proof.
  split_and!; [compute_done..|].
  intros [Hscheme _]. vm_compute in Hscheme. discriminate.
Qed.

Lemma links_kept_on_seed_netloc_witness :
  (∀ (obj : MegaScraper) soup href,
      href ∈ _extract_unexplored_pages Demo.mixed_env obj soup →
      netloc (urlparse Demo.mixed_env href) = netloc (_parsed_seed obj)
      ∧ (href ∉ _explored obj))
  ∧ ∀ url,
      url ∈ _unexplored
              (self (run_calls Demo.mixed_env [Scrape 1]
                       (fresh (self Demo.mixed_start) ∅)).1) →
      netloc (urlparse Demo.mixed_env url) = netloc (_parsed_seed (self Demo.mixed_start)).
Proof.
  apply (links_kept_on_seed_netloc Demo.mixed_env (self Demo.mixed_start) ∅ [Scrape 1]).
  demo_constructed.
Defined.



Lemma grouped_numerical_layout_witness :
  "scraped/0001/2.jpg"%string
  = Py.path_join
      (Py.path_join (_output_folderpath (self Demo.small_start))
         (Py.zfill 4 (Py.str ((Z.of_nat 2 - 1) `div` _images_per_folder (self Demo.small_start)
                              + _folder_initial_num (self Demo.small_start)))))
      (Py.str (Z.of_nat 2) +:+ ".jpg")
  ∧ (_images_per_folder (self Demo.small_start) = 100 →
     _folder_initial_num (self Demo.small_start) = 1 →
     ((1 ≤ 2 ≤ 100)%nat →
      "scraped/0001/2.jpg"%string
      = Py.path_join (Py.path_join (_output_folderpath (self Demo.small_start)) "0001")
          (Py.str (Z.of_nat 2) +:+ ".jpg"))
     ∧ (2%nat = 101%nat →
        "scraped/0001/2.jpg"%string
        = Py.path_join (Py.path_join (_output_folderpath (self Demo.small_start)) "0002")
            "101.jpg")).
Proof.
  apply (grouped_numerical_layout Demo.small_env (self Demo.small_start) ∅
           [Scrape 2; Download 5] 2 "http://a.com/i1.png" "scraped/0001/2.jpg").
  - demo_constructed.
  - reflexivity.
  - reflexivity.
  - vm_compute. reflexivity.
Defined.

Lemma gif_sources_never_discovered_witness :
  (∀ (obj : MegaScraper) images_urls element src,
      Py.truthy (get element "src") = Some src →
      Py.endswith src ".gif" = true →
      add_image_url Demo.small_env obj images_urls element = images_urls)
  ∧ ∀ image_url,
      image_url ∈ _images_urls
                    (self (run_calls Demo.small_env [Scrape 2]
                             (fresh (self Demo.small_start) ∅)).1) →
      Py.endswith image_url ".gif" = false.
Proof.
  apply (gif_sources_never_discovered Demo.small_env (self Demo.small_start) ∅ [Scrape 2]).
  demo_constructed.
Defined.


Lemma discovery_independent_of_calls_witness :
  let run := run_calls Demo.tree_env [Scrape 1; Scrape 2; Download 1; Scrape 1; Scrape 3]
               (fresh (self Demo.tree_start) ∅) in
  ⋃ (scraped_sets run.2) = _images_urls (self run.1)
  ∧ (∀ max_pages w2 s2,
       scrape Demo.tree_env_other max_pages (fresh (self Demo.tree_start) ∅) = (w2, Ok s2) →
       _unexplored (self w2) = ∅ →
       s2 = _images_urls (self run.1)
       ∧ _images_urls (self w2) = _images_urls (self run.1))
  ∧ (∀ max_pages,
       2 * Z.of_nat (size (_explored (self run.1))) < max_pages →
       ∃ w2 s2,
         scrape Demo.tree_env_other max_pages (fresh (self Demo.tree_start) ∅) = (w2, Ok s2)
         ∧ _unexplored (self w2) = ∅).
Proof.
  apply (discovery_independent_of_calls Demo.tree_env Demo.tree_env_other
           (self Demo.tree_start) ∅ ∅
           [Scrape 1; Scrape 2; Download 1; Scrape 1; Scrape 3]).
  - by split_and!.
  - demo_constructed.
  - apply surjective_pairing.
  - vm_compute. repeat constructor.
  - vm_compute. reflexivity.
Defined.

(** ** Further properties of the methods *)

Section Budgets.

Variable E : Env.

(** The turns of the loop of [scrape] are counted by the pages fetched. *)
Lemma scrape_loop_count n w acc :
  (length (gets (log (scrape_loop E n w acc).1)) ≤ length (gets (log w)) + n)%nat
  ∧ (∀ acc', (scrape_loop E n w acc).2 = Ok acc' →
       _unexplored (self (scrape_loop E n w acc).1) = ∅
       ∨ length (gets (log (scrape_loop E n w acc).1))
         = (length (gets (log w)) + n)%nat).
Proof.
  revert w acc. induction n as [|n IH]; intros w acc; simpl.
  { split; [lia|]. intros _ _. right. lia. }
  case_bool_decide as Hne; simpl. { split; [lia|]. intros _ _. by left. }
  destruct (scrape_iteration_cases E w acc Hne) as (url & Hin & Hit).
  destruct (requests_get E url) as [soup|] eqn:Hget; rewrite Hit.
  - destruct (IH (explore E w url soup) (acc ∪ images_of_page E (self w) url))
      as [Hle Heq].
    simpl in Hle, Heq. rewrite gets_app, length_app in Hle, Heq. simpl in Hle, Heq.
    split; [lia|]. intros acc' Hok. destruct (Heq acc' Hok) as [?|?]; [by left|right; lia].
  - simpl. rewrite gets_app, length_app. simpl. split; [lia|]. by intros acc' [=].
Qed.

(** X1. A call [scrape(max_pages)] fetches at most [max_pages] pages; when
    it returns while URLs are still waiting in [_unexplored], it has
    fetched exactly [max_pages] pages; and for [max_pages < 1] it raises an
    assertion error before it does anything. *)
Theorem scrape_fetches_at_most_max_pages max_pages w :
  (length (gets (log (scrape E max_pages w).1))
   ≤ length (gets (log w)) + Z.to_nat max_pages)%nat
  ∧ (∀ new_images_urls,
       (scrape E max_pages w).2 = Ok new_images_urls →
       _unexplored (self (scrape E max_pages w).1) ≠ ∅ →
       length (gets (log (scrape E max_pages w).1))
       = (length (gets (log w)) + Z.to_nat max_pages)%nat)
  ∧ (max_pages < 1 → scrape E max_pages w = (w, Raise AssertionError)).
Proof.
  unfold scrape. destruct (1 <=? max_pages) eqn:Hle; simpl.
  - apply Z.leb_le in Hle.
    destruct (scrape_loop_count (Z.to_nat max_pages) w ∅) as [Hcount Hexact].
    destruct (scrape_loop E (Z.to_nat max_pages) w ∅) as [w1 [acc|e]]; simpl in *.
    + split_and!; [done| |lia]. intros _ _ Hne.
      by destruct (Hexact acc eq_refl).
    + split_and!; [done|done|lia].
  - split_and!; [lia|done|done].
Qed.

(** X2. Once nothing is left to explore, a call of [scrape] fetches
    nothing, returns the empty set and leaves the world as it is. *)
Theorem scrape_on_empty_frontier max_pages w :
  1 ≤ max_pages →
  _unexplored (self w) = ∅ →
  scrape E max_pages w = (w, Ok ∅).
Proof.
  intros Hle Hempty. unfold scrape. destruct (1 <=? max_pages) eqn:Hb; [|lia]. simpl.
  destruct (Z.to_nat max_pages) as [|n] eqn:Hn; [lia|]. simpl.
  rewrite bool_decide_eq_true_2 by done. rewrite (right_id_L ∅ (∪)).
  f_equal; [by destruct w as [[c e u i d x] f l]|].
  f_equal. apply set_eq. intros x. rewrite elem_of_difference, elem_of_empty. tauto.
Qed.

(** What one call of [scrape] adds. *)
Lemma scrape_grows max_pages w : grows w (scrape E max_pages w).1.
Proof.
  pose proof (scrape_images_urls E max_pages w) as Himg.
  destruct (scrape_keeps E max_pages w) as (Hc & Hd & Hi & Hf & _).
  unfold grows. rewrite Hc, Hd, Hi, Hf, Himg.
  split_and!; [done| |set_solver|done|lia|done|].
  - unfold scrape. destruct (1 <=? max_pages); simpl; [|done].
    pose proof (scrape_loop_trace E (Z.to_nat max_pages) w ∅) as Htrace.
    destruct (scrape_loop E (Z.to_nat max_pages) w ∅) as [w1 [acc|e]]; simpl;
      destruct Htrace as (visited & _ & -> & _); set_solver.
  - unfold scrape. destruct (1 <=? max_pages); simpl; [|done].
    pose proof (scrape_loop_trace E (Z.to_nat max_pages) w ∅) as Htrace.
    destruct (scrape_loop E (Z.to_nat max_pages) w ∅) as [w1 [acc|e]]; simpl.
    + destruct Htrace as (visited & _ & _ & _ & -> & _). by eexists.
    + destruct Htrace as (visited & _ & _ & _ & url & _ & _ & _ & -> & _). by eexists.
Qed.

Lemma grows_trans w1 w2 w3 : grows w1 w2 → grows w2 w3 → grows w1 w3.
Proof.
  intros (Hc & ? & ? & ? & ? & ? & ?) (Hc' & ? & ? & ? & ? & ? & ?).
  unfold grows. split_and!; first [by etrans | lia].
Qed.

Lemma download_image_grows w image_url : grows w (download_image E w image_url).1.
Proof.
  unfold download_image, grows. simpl.
  destruct (image_open E image_url) as [image|]; simpl.
  2: { split_and!; try done. by eexists. }
  destruct ((_min_width (self w) <=? width image)
            && (_min_height (self w) <=? height image)); simpl.
  2: { split_and!; try done; [set_solver|by eexists]. }
  destruct (_output_structure (self w)); simpl.
  - split_and!; try done; [set_solver|lia|set_solver|].
    rewrite <- (assoc_L (++)). by eexists.
  - destruct (path_exists _ _); simpl.
    + split_and!; try done; [set_solver|lia|set_solver|].
      rewrite <- (assoc_L (++)). by eexists.
    + split_and!; try done; [set_solver|lia|set_solver|].
      rewrite <- !(assoc_L (++)). by eexists.
Qed.

Lemma download_grows how_many w : grows w (download E how_many w).1.
Proof.
  apply (download_rule E (grows w)).
  - intros w1 path Hg. apply (grows_trans _ w1); [done|].
    unfold grows. simpl. split_and!; try done; [set_solver|by eexists].
  - intros w1 u Hg _. apply (grows_trans _ w1); [done|]. apply download_image_grows.
  - unfold grows. by split_and!.
Qed.

Lemma run_calls_grows cs w : grows w (run_calls E cs w).1.
Proof.
  apply (run_calls_rule E (grows w)).
  - intros mp w1 Hg. apply (grows_trans _ w1); [done|apply scrape_grows].
  - intros hm w1 Hg. apply (grows_trans _ w1); [done|apply download_grows].
  - unfold grows. by split_and!.
Qed.

(** X3. Whatever calls are made and however they end, nothing is ever
    forgotten: [_explored], [_images_urls], [_downloaded] and the disk only
    gain elements, [_downloaded_idx] never decreases, the log is extended
    and the configuration stays as it was. *)
Theorem calls_only_add cs w :
  cfg (self (run_calls E cs w).1) = cfg (self w)
  ∧ _explored (self w) ⊆ _explored (self (run_calls E cs w).1)
  ∧ _images_urls (self w) ⊆ _images_urls (self (run_calls E cs w).1)
  ∧ _downloaded (self w) ⊆ _downloaded (self (run_calls E cs w).1)
  ∧ _downloaded_idx (self w) ≤ _downloaded_idx (self (run_calls E cs w).1)
  ∧ fs w ⊆ fs (run_calls E cs w).1
  ∧ log w `prefix_of` log (run_calls E cs w).1.
Proof.
  apply (run_calls_rule E (grows w)).
  - intros mp w1 Hg. apply (grows_trans _ w1); [done|apply scrape_grows].
  - intros hm w1 Hg. apply (grows_trans _ w1); [done|apply download_grows].
  - unfold grows. by split_and!.
Qed.

(** How the body of the loop of [download] ends. *)
Lemma download_image_result w image_url :
  (download_image E w image_url).2
  = match image_open E image_url with
    | Some _ => Ok tt
    | None => Raise (ImageError image_url)
    end.
Proof.
  unfold download_image. destruct (image_open E image_url) as [image|]; [|done].
  destruct (_ && _); [|done]. simpl.
  destruct (_output_structure (self w)); [done|]. by destruct (path_exists _ _).
Qed.

Lemma download_loop_raise n w e :
  (download_loop E n w).2 = Raise e →
  ∃ image_url,
    e = ImageError image_url
    ∧ image_open E image_url = None
    ∧ image_url ∈ _images_urls (self (download_loop E n w).1)
    ∧ (image_url ∉ _downloaded (self (download_loop E n w).1))
    ∧ last (opens (log (download_loop E n w).1)) = Some image_url.
Proof.
  revert w. induction n as [|n IH]; intros w; simpl; [done|].
  case_bool_decide as Hne; [done|].
  destruct (set_pop_is_Some (choice E (log w)) _ Hne) as [u Hpop]. rewrite Hpop.
  apply set_pop_elem, elem_of_difference in Hpop as [Hin Hnew].
  pose proof (download_image_result w u) as Hres.
  destruct (image_open E u) as [image|] eqn:Him.
  - destruct (download_image E w u) as [w1 r]. simpl in Hres. subst r. apply IH.
  - unfold download_image in *. rewrite Him in *. simpl. intros [= <-].
    exists u. rewrite opens_app. simpl. by rewrite last_snoc.
Qed.


Lemma download_loop_count n w :
  (length (opens (log (download_loop E n w).1)) ≤ length (opens (log w)) + n)%nat
  ∧ ((download_loop E n w).2 = Ok tt →
     _images_urls (self (download_loop E n w).1)
     ⊆ _downloaded (self (download_loop E n w).1)
     ∨ length (opens (log (download_loop E n w).1))
       = (length (opens (log w)) + n)%nat).
Proof.
  revert w. induction n as [|n IH]; intros w; simpl.
  { split; [lia|]. intros _. right. lia. }
  case_bool_decide as Hne; simpl.
  { split; [lia|]. intros _. left. intros x Hx.
    destruct (decide (x ∈ _downloaded (self w))) as [|Hnot]; [done|].
    exfalso. apply (not_elem_of_empty (C := gset string) x). rewrite <- Hne.
    by apply elem_of_difference. }
  destruct (set_pop_is_Some (choice E (log w)) _ Hne) as [u Hpop]. rewrite Hpop.
  pose proof (download_image_result w u) as Hres.
  destruct (download_image_spec E w u) as (_ & Hop & _).
  destruct (download_image E w u) as [w1 r]. simpl in Hres, Hop.
  destruct (image_open E u) as [image|]; subst r; simpl.
  - destruct (IH w1) as [Hle Heq]. rewrite Hop, length_app in Hle, Heq.
    simpl in Hle, Heq. split; [lia|]. intros Hok.
    destruct (Heq Hok) as [?|?]; [by left|right; lia].
  - rewrite Hop, length_app. simpl. split; [lia|done].
Qed.

(** X5. A call [download(how_many)] opens at most [how_many] images; when
    it returns while discovered images are still not downloaded, it has
    opened exactly [how_many] images: the budget counts attempts, also
    those that end in a rejection for size. *)
Theorem download_opens_at_most_how_many how_many w :
  (length (opens (log (download E how_many w).1))
   ≤ length (opens (log w)) + Z.to_nat how_many)%nat
  ∧ ((download E how_many w).2 = Ok tt →
     ¬ _images_urls (self (download E how_many w).1)
       ⊆ _downloaded (self (download E how_many w).1) →
     length (opens (log (download E how_many w).1))
     = (length (opens (log w)) + Z.to_nat how_many)%nat).
Proof.
  unfold download.
  set (w0 := if path_exists w (_output_folderpath (self w)) then w
             else makedirs w (_output_folderpath (self w))).
  assert (opens (log w0) = opens (log w)) as Hop.
  { unfold w0. destruct (path_exists _ _); [done|]. simpl.
    rewrite opens_app. simpl. by rewrite app_nil_r. }
  destruct (download_loop_count (Z.to_nat how_many) w0) as [Hle Heq].
  rewrite Hop in Hle, Heq. split; [done|]. intros Hok Hleft.
  by destruct (Heq Hok).
Qed.



End Budgets.

Section Downloads.

Variable E : Env.

(** X7. [download] only ever opens image URLs that [scrape] has
    discovered: after any sequence of calls on a new object every opened
    URL, and so every URL marked as downloaded, is in [_images_urls]. *)
Theorem download_opens_only_discovered_images self0 disk cs :
  constructed E self0 →
  (∀ image_url,
     image_url ∈ opens (log (run_calls E cs (fresh self0 disk)).1) →
     image_url ∈ _images_urls (self (run_calls E cs (fresh self0 disk)).1))
  ∧ _downloaded (self (run_calls E cs (fresh self0 disk)).1)
    ⊆ _images_urls (self (run_calls E cs (fresh self0 disk)).1).
Proof.
  intros Hc.
  set (P := λ w : World,
    (∀ image_url, image_url ∈ opens (log w) → image_url ∈ _images_urls (self w))
    ∧ _downloaded (self w) ⊆ _images_urls (self w)).
  apply (run_calls_rule E P).
  - intros mp w [Hop Hd].
    destruct (scrape_keeps E mp w) as (_ & Hd' & _ & _ & Hop' & _).
    destruct (scrape_grows E mp w) as (_ & _ & Him & _).
    unfold P. rewrite Hd', Hop'. split; [|by etrans]. intros u Hu. by apply Him, Hop.
  - intros hm w HP. apply (download_rule E P); [| |done].
    + intros w1 path [Hop Hd]. unfold P. simpl. rewrite opens_app. simpl.
      by rewrite app_nil_r.
    + intros w1 u [Hop Hd] [Hin _]%elem_of_difference.
      destruct (download_image_spec E w1 u) as ((_ & _ & _ & Him & _) & Hop' & Hcase).
      unfold P. rewrite Him, Hop'. split.
      * intros v [Hv| ->%list_elem_of_singleton]%elem_of_app; [by apply Hop|done].
      * destruct (image_open E u); destruct Hcase as [-> _]; set_solver.
  - destruct (constructed_inv E self0 Hc) as (_ & _ & _ & Hd & _).
    unfold P. simpl. rewrite Hd. split; [|set_solver]. by intros u Hu%elem_of_nil.
Qed.

(** A save puts its file on the disk. *)
Lemma download_image_saves_on_disk w image_url :
  (∀ u path, (u, path) ∈ saves (log w) → path ∈ fs w) →
  ∀ u path,
    (u, path) ∈ saves (log (download_image E w image_url).1) →
    path ∈ fs (download_image E w image_url).1.
Proof.
  intros Hdisk u path. unfold download_image.
  destruct (image_open E image_url) as [image|]; simpl.
  2: { rewrite saves_app. simpl. rewrite app_nil_r. apply Hdisk. }
  destruct ((_min_width (self w) <=? width image)
            && (_min_height (self w) <=? height image)); simpl.
  2: { rewrite saves_app. simpl. rewrite app_nil_r. apply Hdisk. }
  assert (Hadd : ∀ (disk : gset string) l p,
             (∀ u path, (u, path) ∈ saves l → path ∈ disk) →
             (u, path) ∈ saves (l ++ [EvSave image_url p]) → path ∈ {[p]} ∪ disk).
  { intros disk l p Hl. rewrite saves_app. simpl.
    intros [Hs|Hs%list_elem_of_singleton]%elem_of_app.
    - apply elem_of_union. right. by apply (Hl u).
    - injection Hs as _ ->. apply elem_of_union. left. by apply elem_of_singleton. }
  destruct (_output_structure (self w)); simpl.
  - apply Hadd. intros v q. rewrite saves_app. simpl. rewrite app_nil_r. apply Hdisk.
  - destruct (path_exists _ _); simpl; apply Hadd; intros v q;
      rewrite ?saves_app; simpl; rewrite ?app_nil_r; [apply Hdisk|].
    intros Hs. apply elem_of_union. right. by apply (Hdisk v).
Qed.

(** X8. After any sequence of calls on a new object, every file that
    [download] saved is on the disk, and the disk has kept all it had. *)
Theorem saved_files_are_on_disk self0 disk cs :
  (∀ image_url path,
     (image_url, path) ∈ saves (log (run_calls E cs (fresh self0 disk)).1) →
     path ∈ fs (run_calls E cs (fresh self0 disk)).1)
  ∧ disk ⊆ fs (run_calls E cs (fresh self0 disk)).1.
Proof.
  split; [|apply (run_calls_grows E cs (fresh self0 disk))].
  set (P := λ w : World, ∀ u path, (u, path) ∈ saves (log w) → path ∈ fs w).
  apply (run_calls_rule E P).
  - intros mp w HP. destruct (scrape_keeps E mp w) as (_ & _ & _ & Hf & _ & Hs).
    unfold P. by rewrite Hf, Hs.
  - intros hm w HP. apply (download_rule E P); [| |done].
    + intros w1 p HP1 u path. simpl. rewrite saves_app. simpl. rewrite app_nil_r.
      intros Hs. apply elem_of_union. right. by apply (HP1 u).
    + intros w1 u HP1 _ v path. by apply download_image_saves_on_disk.
  - by intros u path Hs%elem_of_nil.
Qed.


Lemma NoDup_length_le_size (l : list string) (X : gset string) :
  NoDup l → (∀ x, x ∈ l → x ∈ X) → (length l ≤ size X)%nat.
Proof.
  intros Hnd Hsub. rewrite <- (size_list_to_set (C := gset string) l Hnd).
  apply subseteq_size. intros x Hx%elem_of_list_to_set. by apply Hsub.
Qed.

(** X10. After any sequence of calls on a new object, no image was saved
    twice; [_downloaded_idx] is one more than the number of saved files,
    which is at most the number of images marked as downloaded. *)
Theorem images_saved_at_most_once self0 disk cs :
  constructed E self0 →
  NoDup (saves (log (run_calls E cs (fresh self0 disk)).1)).*1
  ∧ _downloaded_idx (self (run_calls E cs (fresh self0 disk)).1)
    = 1 + Z.of_nat (length (saves (log (run_calls E cs (fresh self0 disk)).1)))
  ∧ (length (saves (log (run_calls E cs (fresh self0 disk)).1))
     ≤ size (_downloaded (self (run_calls E cs (fresh self0 disk)).1)))%nat.
Proof.
  intros Hc.
  set (P := λ w : World, download_inv E w ∧ NoDup (saves (log w)).*1).
  assert (P (run_calls E cs (fresh self0 disk)).1) as [Hinv Hnd].
  { apply (run_calls_rule E P).
    - intros mp w [Hinv Hnd]. split; [by apply download_inv_scrape|].
      destruct (scrape_keeps E mp w) as (_ & _ & _ & _ & _ & Hs). by rewrite Hs.
    - intros hm w HP. apply (download_rule E P); [| |done].
      + intros w1 p [Hinv Hnd]. split; [by apply download_inv_makedirs|]. simpl.
        rewrite saves_app. simpl. by rewrite app_nil_r.
      + intros w1 u [Hinv Hnd] Hu. split; [by apply download_inv_image|].
        destruct Hinv as (_ & _ & _ & _ & Hsv & _).
        apply elem_of_difference in Hu as [_ Hnew].
        destruct (download_image_spec E w1 u) as (_ & _ & Hcase).
        destruct (image_open E u) as [image|]; [|by destruct Hcase as (_ & _ & -> & _)].
        destruct Hcase as [_ Hcase].
        destruct (_ && _); [|by destruct Hcase as (_ & -> & _)].
        destruct Hcase as [_ ->]. rewrite fmap_app. simpl.
        apply NoDup_app. split; [done|]. split; [|apply NoDup_singleton].
        intros v Hv ->%list_elem_of_singleton.
        apply list_elem_of_fmap in Hv as ([v' path] & -> & Hv). by apply Hnew, (Hsv _ path).
    - split; [by apply download_inv_fresh|]. simpl. apply NoDup_nil_2. }
  destruct Hinv as (Hidx & _ & _ & _ & Hsv & _). split_and!; [done..|].
  rewrite <- (length_fmap fst). apply NoDup_length_le_size; [done|].
  intros v ([v' path] & -> & Hv)%list_elem_of_fmap. by apply (Hsv _ path).
Qed.

End Downloads.

Section Crawls.

Variable E : Env.

(** X11. The crawler never leaves the site: after any sequence of calls on
    a new object, every page that was fetched has the network location of
    the seed and can be reached from the seed through links that stay on
    that network location. *)
Theorem fetched_pages_stay_on_site self0 disk cs url :
  constructed E self0 →
  url ∈ gets (log (run_calls E cs (fresh self0 disk)).1) →
  netloc (urlparse E url) = netloc (urlparse E (_seed self0))
  ∧ reach E self0 url.
Proof.
  intros Hc.
  destruct (constructed_inv E self0 Hc) as (He0 & Hu0 & _ & _ & _ & Hps & _).
  set (P := λ w : World,
    cfg (self w) = cfg self0
    ∧ (∀ u, u ∈ _unexplored (self w) →
            netloc (urlparse E u) = netloc (urlparse E (_seed self0)) ∧ reach E self0 u)
    ∧ (∀ u, u ∈ gets (log w) →
            netloc (urlparse E u) = netloc (urlparse E (_seed self0)) ∧ reach E self0 u)).
  assert (P (run_calls E cs (fresh self0 disk)).1) as (_ & _ & Hgets);
    [|intros Hin; by apply Hgets].
  apply (run_calls_rule E P).
  - apply (scrape_rule E P).
    + intros w u soup (Hcfg & Hun & Hg) Hin Hget. split_and!; [done|..]; simpl.
      * rewrite (extract_unexplored_pages_as_links E self0 w u soup Hcfg Hget).
        intros v [[Hv _]%elem_of_difference|[Hv _]%elem_of_difference]%elem_of_union;
          [by apply Hun|].
        split; [|apply (reach_link E self0 u); [by apply Hun|done]].
        unfold links in Hv. rewrite Hget in Hv.
        apply elem_of_extract_unexplored_pages in Hv as (_ & _ & _ & _ & _ & _ & Hn).
        simpl in Hn. by rewrite Hn, Hps.
      * intros v. rewrite gets_app. simpl.
        intros [Hv| ->%list_elem_of_singleton]%elem_of_app; [by apply Hg|by apply Hun].
    + intros w u (Hcfg & Hun & Hg) Hin Hget. split_and!; [done|..]; simpl.
      * intros v [Hv _]%elem_of_difference. by apply Hun.
      * intros v. rewrite gets_app. simpl.
        intros [Hv| ->%list_elem_of_singleton]%elem_of_app; [by apply Hg|by apply Hun].
    + by intros w v HP.
  - intros hm w (Hcfg & Hun & Hg). unfold P.
    destruct (download_keeps E hm w) as (Hc' & _ & Hu' & _ & Hg').
    by rewrite Hc', Hu', Hg'.
  - unfold P. simpl. rewrite Hu0. split_and!; [done| |by intros u Hu%elem_of_nil].
    intros u ->%elem_of_singleton. split; [done|apply reach_seed].
Qed.

(** X12. Every image URL in [_images_urls] was extracted from a page that
    was fetched and whose URL matches the page regex, and it matches the
    image regex. *)
Theorem discovered_images_come_from_matching_pages self0 disk cs image_url :
  constructed E self0 →
  image_url ∈ _images_urls (self (run_calls E cs (fresh self0 disk)).1) →
  re_search E (_regex_images self0) image_url = true
  ∧ ∃ page soup,
      page ∈ gets (log (run_calls E cs (fresh self0 disk)).1)
      ∧ requests_get E page = Some soup
      ∧ re_search E (_regex_pages self0) page = true
      ∧ image_url ∈ _extract_images_urls E self0 soup.
Proof.
  intros Hc.
  destruct (constructed_inv E self0 Hc) as (_ & _ & Hi0 & _).
  set (P := λ w : World,
    cfg (self w) = cfg self0
    ∧ ∀ i, i ∈ _images_urls (self w) →
           ∃ page, page ∈ gets (log w) ∧ i ∈ images_of_page E self0 page).
  assert (P (run_calls E cs (fresh self0 disk)).1) as (_ & Himg).
  { apply (run_calls_rule E P).
    - intros mp w [Hcfg Him].
      destruct (scrape_grows E mp w) as (Hc' & _ & _ & _ & _ & _ & [l Hl]).
      split; [by rewrite Hc'|]. revert Hl. unfold scrape.
      destruct (1 <=? mp); simpl; [|done].
      pose proof (scrape_loop_trace E (Z.to_nat mp) w ∅) as Htrace.
      destruct (scrape_loop E (Z.to_nat mp) w ∅) as [w1 [acc|e]]; simpl; intros Hl.
      + destruct Htrace as (visited & (_ & Him1 & _) & _ & _ & Hlog & -> & _).
        rewrite Him1, Hlog, gets_app.
        intros i [Hi|[Hi|Hi]%elem_of_union]%elem_of_union;
          [|by apply elem_of_empty in Hi|].
        * destruct (Him i Hi) as (page & ? & ?). exists page.
          split; [|done]. apply elem_of_app. by left.
        * unfold images_this_call in Hi.
          apply elem_of_union_list in Hi as (X & (page & -> & Hp)%list_elem_of_fmap & Hi).
          exists page. split.
          -- apply elem_of_app. right. clear -Hp.
             induction visited as [|v visited IH]; [by apply elem_of_nil in Hp|].
             simpl. apply elem_of_cons in Hp as [->|Hp]; [left|right; by apply IH].
          -- by rewrite <- (images_of_page_cfg E (self w) self0).
      + destruct Htrace as (visited & (_ & Him1 & _) & _). rewrite Him1, Hl, gets_app.
        intros i Hi. destruct (Him i Hi) as (page & ? & ?). exists page.
        split; [|done]. apply elem_of_app. by left.
    - intros hm w [Hcfg Him]. unfold P.
      destruct (download_keeps E hm w) as (Hc' & _ & _ & Hi' & Hg').
      by rewrite Hc', Hi', Hg'.
    - unfold P. simpl. rewrite Hi0. split; [done|]. by intros i Hi%elem_of_empty. }
  intros Hin. destruct (Himg image_url Hin) as (page & Hp & Hi).
  unfold images_of_page in Hi.
  destruct (requests_get E page) as [soup|] eqn:Hget; [|by apply elem_of_empty in Hi].
  destruct (re_search E (_regex_pages self0) page) eqn:Hre;
    [|by apply elem_of_empty in Hi].
  split; [|by exists page, soup].
  by apply elem_of_extract_images_urls in Hi as (_ & _ & _ & _ & _ & _ & ?).
Qed.

(** X13. As long as no call of [scrape] raises, no page is lost: the seed
    and every link of an explored page are explored or waiting in
    [_unexplored]; and when nothing is left to explore, the explored pages
    are exactly the pages that can be reached from the seed. *)
Theorem crawl_loses_no_page self0 disk cs w os :
  constructed E self0 →
  run_calls E cs (fresh self0 disk) = (w, os) →
  Forall scrape_ok os →
  _seed self0 ∈ _explored (self w) ∪ _unexplored (self w)
  ∧ (∀ url, url ∈ _explored (self w) →
            links E self0 url ⊆ _explored (self w) ∪ _unexplored (self w))
  ∧ (_unexplored (self w) = ∅ →
     ∀ url, url ∈ _explored (self w) ↔ reach E self0 url).
Proof.
  intros Hc Hrun Hok.
  destruct (constructed_inv E self0 Hc) as (He0 & Hu0 & Hi0 & _).
  pose proof (crawl_inv_run E self0 cs _ w os
                (crawl_inv_fresh E self0 disk He0 Hu0 Hi0) Hrun Hok) as Hinv.
  split_and!.
  - apply Hinv.
  - apply Hinv.
  - intros Hdone. by apply crawl_inv_done.
Qed.

(** X14. The two methods own different parts of the world.  A call of
    [scrape], however it ends, opens no image, saves no file and leaves
    [_downloaded], [_downloaded_idx] and the disk as they are; a call of
    [download], however it ends, fetches no page and leaves [_explored],
    [_unexplored] and [_images_urls] as they are. *)
Theorem scrape_and_download_do_not_interfere n w :
  (_downloaded (self (scrape E n w).1) = _downloaded (self w)
   ∧ _downloaded_idx (self (scrape E n w).1) = _downloaded_idx (self w)
   ∧ fs (scrape E n w).1 = fs w
   ∧ opens (log (scrape E n w).1) = opens (log w)
   ∧ saves (log (scrape E n w).1) = saves (log w))
  ∧ (_explored (self (download E n w).1) = _explored (self w)
     ∧ _unexplored (self (download E n w).1) = _unexplored (self w)
     ∧ _images_urls (self (download E n w).1) = _images_urls (self w)
     ∧ gets (log (download E n w).1) = gets (log w)).
Proof.
  split.
  - by destruct (scrape_keeps E n w) as (_ & ? & ? & ? & ? & ?).
  - by destruct (download_keeps E n w) as (_ & ? & ? & ? & ?).
Qed.

(** X15. What [_extract_unexplored_pages] returns: a URL is in the result
    exactly when some anchor of the page has a non-empty [href] that,
    with the root put in front when it starts with a slash, is that URL,
    the URL is not explored and its network location is the seed's.  The
    order of the anchors and their repetition do not matter; anchors
    without [href] give nothing. *)
Theorem extract_unexplored_pages_spec (obj : MegaScraper) soup url :
  url ∈ _extract_unexplored_pages E obj soup ↔
  ∃ element href,
    element ∈ soup ∧ tag_name element = "a"%string
    ∧ get element "href" = Some href ∧ href ≠ ""%string
    ∧ url = (if Py.startswith href "/" then _root obj +:+ href else href)
    ∧ (url ∉ _explored obj)
    ∧ netloc (urlparse E url) = netloc (_parsed_seed obj).
Proof.
  rewrite elem_of_extract_unexplored_pages. unfold find_all, Py.truthy.
  split.
  - intros (el & href & [Hn Hel]%list_elem_of_filter & Hh & ? & ? & ?).
    destruct (get el "href") as [h|] eqn:Hget; [|done].
    destruct (String.eqb_spec h ""); [done|]. injection Hh as ->.
    by exists el, href.
  - intros (el & href & Hel & Hn & Hget & Hne & ? & ? & ?). exists el, href.
    split; [by apply list_elem_of_filter|]. rewrite Hget.
    by destruct (String.eqb_spec href "").
Qed.

(** X16. What [_extract_images_urls] returns: a URL is in the result
    exactly when some image element of the page has a non-empty [src] that
    does not end in [.gif] and that, with the root put in front when it
    starts with a slash, is that URL, and the image regex is found in the
    URL. *)
Theorem extract_images_urls_spec (obj : MegaScraper) soup image_url :
  image_url ∈ _extract_images_urls E obj soup ↔
  ∃ element src,
    element ∈ soup ∧ tag_name element = "img"%string
    ∧ get element "src" = Some src ∧ src ≠ ""%string
    ∧ Py.endswith src ".gif" = false
    ∧ image_url = (if Py.startswith src "/" then _root obj +:+ src else src)
    ∧ re_search E (_regex_images obj) image_url = true.
Proof.
  rewrite elem_of_extract_images_urls. unfold find_all, Py.truthy.
  split.
  - intros (el & src & [Hn Hel]%list_elem_of_filter & Hs & ? & ? & ?).
    destruct (get el "src") as [h|] eqn:Hget; [|done].
    destruct (String.eqb_spec h ""); [done|]. injection Hs as ->.
    by exists el, src.
  - intros (el & src & Hel & Hn & Hget & Hne & ? & ? & ?). exists el, src.
    split; [by apply list_elem_of_filter|]. rewrite Hget.
    by destruct (String.eqb_spec src "").
Qed.

End Crawls.

(** ** File names *)

Lemma has_slash_app a b : Py.has_slash (a +:+ b) = Py.has_slash a || Py.has_slash b.
Proof. induction a as [|c a IH]; simpl; [done|]. by rewrite IH, orb_assoc. Qed.

Lemma last_segment_no_slash s : Py.has_slash s = false → Py.last_segment s = s.
Proof.
  destruct s as [|c s]; simpl; [done|].
  intros [Hc Hs]%orb_false_iff. by rewrite Hs, Hc.
Qed.

Lemma last_segment_after_slash p b :
  Py.has_slash b = false → Py.last_segment (p +:+ String "/" b) = b.
Proof.
  intros Hb. induction p as [|c p IH]; simpl.
  - by rewrite Hb.
  - rewrite has_slash_app. simpl. by rewrite orb_true_r.
Qed.

Lemma has_slash_last_segment s : Py.has_slash (Py.last_segment s) = false.
Proof.
  induction s as [|c s IH]; simpl; [done|].
  destruct (Py.has_slash s) eqn:Hs; [done|].
  destruct (Ascii.eqb c "/") eqn:Hc; [done|]. simpl. by rewrite Hc, Hs.
Qed.

Lemma last_segment_is_suffix s : ∃ p, s = p +:+ Py.last_segment s.
Proof.
  induction s as [|c s [p IH]]; simpl; [by exists ""%string|].
  destruct (Py.has_slash s).
  - exists (String c p). change (String c s = String c (p +:+ Py.last_segment s)).
    by f_equal.
  - destruct (Ascii.eqb c "/"); [by exists (String c "")|by exists ""%string].
Qed.

Lemma endswith_is_suffix s suf : Py.endswith s suf = true → ∃ p, s = p +:+ suf.
Proof.
  induction s as [|c s IH]; cbn [Py.endswith].
  - destruct (String.eqb_spec "" suf) as [<-|]; [|done]. by exists ""%string.
  - destruct (String.eqb_spec (String c s) suf) as [<-|_]; [by exists ""%string|].
    intros [p ->]%IH. by exists (String c p).
Qed.

Lemma string_app_assoc (a b c : string) : (a +:+ b) +:+ c = a +:+ (b +:+ c).
Proof. induction a as [|x a IH]; [done|]. change (String x ((a +:+ b) +:+ c) = String x (a +:+ (b +:+ c))). by rewrite IH. Qed.

Lemma startswith_no_slash b : Py.has_slash b = false → Py.startswith b "/" = false.
Proof.
  destruct b as [|c b]; [done|]. cbn [Py.has_slash]. intros [Hc _]%orb_false_iff.
  unfold Py.startswith. cbn [String.prefix].
  destruct (ascii_dec "/" c) as [<-|]; [done|done].
Qed.

Lemma last_segment_path_join a b :
  Py.has_slash b = false → Py.last_segment (Py.path_join a b) = b.
Proof.
  intros Hb. unfold Py.path_join. rewrite (startswith_no_slash b Hb).
  destruct (String.eqb a "" || Py.endswith a "/") eqn:Ha.
  - apply orb_true_iff in Ha as [->%String.eqb_eq|[p ->]%endswith_is_suffix].
    + by apply last_segment_no_slash.
    + rewrite string_app_assoc. by apply (last_segment_after_slash p b).
  - by apply (last_segment_after_slash a b).
Qed.

Lemma has_slash_string_of_uint d : Py.has_slash (NilEmpty.string_of_uint d) = false.
Proof. induction d; simpl; done. Qed.

Lemma has_slash_str n : Py.has_slash (Py.str n) = false.
Proof.
  unfold Py.str, NilZero.string_of_int, NilZero.string_of_uint.
  destruct (Z.to_int n) as [d|d]; destruct d; simpl; try done;
    apply has_slash_string_of_uint.
Qed.

Lemma str_inj a b : Py.str a = Py.str b → a = b.
Proof.
  unfold Py.str. intros Heq. apply DecimalZ.to_int_inj.
  assert (Hnn : ∀ z, Z.to_int z ≠ Decimal.Pos Decimal.Nil ∧ Z.to_int z ≠ Decimal.Neg Decimal.Nil).
  { intros [|p|p]; simpl; split; try done; intros [= H];
      by apply DecimalPos.Unsigned.to_uint_nonnil in H. }
  pose proof (NilZero.isi (Z.to_int a) (proj1 (Hnn a)) (proj2 (Hnn a))) as Ha.
  pose proof (NilZero.isi (Z.to_int b) (proj1 (Hnn b)) (proj2 (Hnn b))) as Hb.
  rewrite Heq in Ha. congruence.
Qed.

Lemma string_length_app (a b : string) :
  String.length (a +:+ b) = (String.length a + String.length b)%nat.
Proof.
  induction a as [|x a IH]; [done|].
  change (S (String.length (a +:+ b)) = S (String.length a + String.length b)).
  by rewrite IH.
Qed.

Lemma string_app_inj_r (a b c : string) : a +:+ c = b +:+ c → a = b.
Proof.
  intros Heq.
  assert (Hlen : String.length a = String.length b).
  { apply (f_equal String.length) in Heq. rewrite !string_length_app in Heq. lia. }
  revert b Heq Hlen. induction a as [|x a IH]; intros [|y b] Heq Hlen; simpl in *; try done.
  injection Heq as -> Heq. f_equal. apply IH; [done|lia].
Qed.

Lemma zeros_length n : String.length (Py.zeros n) = n.
Proof. induction n; simpl; [done|]. by f_equal. Qed.

Lemma zfill_length width s :
  String.length (Py.zfill width s) = Nat.max width (String.length s).
Proof.
  unfold Py.zfill. destruct s as [|c s]; simpl.
  - rewrite zeros_length. lia.
  - destruct (Ascii.eqb c "+" || Ascii.eqb c "-"); simpl;
      rewrite string_length_app, zeros_length; simpl; lia.
Qed.

Section Names.

Variable E : Env.

Lemma image_filename_no_slash (obj : MegaScraper) image_url :
  Py.has_slash (image_filename obj image_url) = false.
Proof.
  unfold image_filename. destruct (_output_naming obj).
  - apply has_slash_last_segment.
  - rewrite has_slash_app, has_slash_str. done.
Qed.

Lemma last_segment_image_filepath (obj : MegaScraper) image_url :
  Py.last_segment (image_filepath obj image_url) = image_filename obj image_url.
Proof.
  unfold image_filepath.
  destruct (_output_structure obj); apply last_segment_path_join, image_filename_no_slash.
Qed.

(** The last segment of the path of each saved file, after any sequence
    of calls on a new object. *)
Lemma saved_basenames_run self0 disk cs k image_url path :
  constructed E self0 →
  saves (log (run_calls E cs (fresh self0 disk)).1) !! k = Some (image_url, path) →
  Py.last_segment path
  = match _output_naming self0 with
    | keep => Py.last_segment image_url
    | numerical => Py.str (Z.of_nat k + 1) +:+ ".jpg"
    end.
Proof.
  intros Hc.
  set (P := λ w : World,
    cfg (self w) = cfg self0
    ∧ download_inv E w
    ∧ ∀ k u p, saves (log w) !! k = Some (u, p) →
        Py.last_segment p
        = match _output_naming self0 with
          | keep => Py.last_segment u
          | numerical => Py.str (Z.of_nat k + 1) +:+ ".jpg"
          end).
  assert (P (run_calls E cs (fresh self0 disk)).1) as (_ & _ & Hnames);
    [|by apply Hnames].
  apply (run_calls_rule E P).
  - intros mp w (Hcfg & Hinv & Hn).
    destruct (scrape_keeps E mp w) as (Hc' & _ & _ & _ & _ & Hs).
    unfold P. rewrite Hc', Hs. split_and!; [done|by apply download_inv_scrape|done].
  - intros hm w HP. apply (download_rule E P); [| |done].
    + intros w1 p (Hcfg & Hinv & Hn). unfold P. simpl. rewrite saves_app. simpl.
      rewrite app_nil_r. split_and!; [done|by apply download_inv_makedirs|done].
    + intros w1 u (Hcfg & Hinv & Hn) Hu.
      destruct (download_image_spec E w1 u) as ((Hc' & _) & _ & Hcase).
      split_and!; [by rewrite Hc'|by apply download_inv_image|].
      destruct Hinv as (Hidx & _).
      destruct (image_open E u) as [image|]; [|by destruct Hcase as (_ & _ & -> & _)].
      destruct Hcase as [_ Hcase].
      destruct (_ && _); [|by destruct Hcase as (_ & -> & _)].
      destruct Hcase as [_ ->]. intros j v q Hj.
      apply lookup_app_Some in Hj as [Hj|[Hlen Hj]]; [by apply Hn|].
      apply list_lookup_singleton_Some in Hj as [Hj0 [= <- <-]].
      rewrite last_segment_image_filepath. unfold image_filename.
      replace (_output_naming (self w1)) with (_output_naming self0) by (by rewrite Hcfg).
      destruct (_output_naming self0); [done|]. do 2 f_equal. lia.
  - unfold P. split_and!; [done|by apply download_inv_fresh|]. by intros j u p' Hj.
Qed.

(** X17. When the original names are kept, the file of an image is saved
    under the last segment of the image URL, in the flat as in the grouped
    layout: two images whose URLs end in the same segment are given the
    same file name. *)
Theorem kept_names_are_last_segments self0 disk cs image_url path :
  constructed E self0 →
  _output_naming self0 = keep →
  (image_url, path) ∈ saves (log (run_calls E cs (fresh self0 disk)).1) →
  Py.last_segment path = Py.last_segment image_url.
Proof.
  intros Hc Hkeep [k Hk]%list_elem_of_lookup_1.
  rewrite (saved_basenames_run self0 disk cs k image_url path Hc Hk). by rewrite Hkeep.
Qed.

(** X18. With numerical names no saved file is ever overwritten: after any
    sequence of calls on a new object, the paths of the saved files are
    pairwise different, in the flat as in the grouped layout. *)
Theorem numerical_names_never_collide self0 disk cs :
  constructed E self0 →
  _output_naming self0 = numerical →
  NoDup (saves (log (run_calls E cs (fresh self0 disk)).1)).*2.
Proof.
  intros Hc Hnum. apply NoDup_alt. intros i j path Hi Hj.
  rewrite list_lookup_fmap in Hi, Hj.
  destruct (saves _ !! i) as [[u1 p1]|] eqn:Hi'; [|done].
  destruct (saves _ !! j) as [[u2 p2]|] eqn:Hj'; [|done].
  simpl in Hi, Hj. injection Hi as ->. injection Hj as ->.
  pose proof (saved_basenames_run self0 disk cs i u1 path Hc Hi') as H1.
  pose proof (saved_basenames_run self0 disk cs j u2 path Hc Hj') as H2.
  rewrite Hnum in H1, H2. rewrite H1 in H2.
  apply string_app_inj_r, str_inj in H2. lia.
Qed.

(** X19. The name of a sub-folder of the grouped layout is the folder
    number written in decimal and padded to four characters: it is never
    shorter, and a number of more than four digits keeps all of them. *)
Theorem image_foldername_length (obj : MegaScraper) :
  String.length (image_foldername obj)
  = Nat.max 4 (String.length
                 (Py.str (Z.quot (_downloaded_idx obj - 1) (_images_per_folder obj)
                          + _folder_initial_num obj))).
Proof. unfold image_foldername. apply zfill_length. Qed.

End Names.

(** ** The program *)

Section Program.

Variable E : Env.

(** How a call of [scrape] can raise. *)
Lemma scrape_raise_cases max_pages w w' e :
  scrape E max_pages w = (w', Raise e) →
  (e = AssertionError ∧ max_pages < 1 ∧ w' = w)
  ∨ (∃ url, e = FetchError url ∧ requests_get E url = None).
Proof.
  unfold scrape. destruct (1 <=? max_pages) eqn:Hle; simpl.
  2: { intros [= <- <-]. left. split_and!; [done|lia|done]. }
  pose proof (scrape_loop_trace E (Z.to_nat max_pages) w ∅) as Htrace.
  destruct (scrape_loop E (Z.to_nat max_pages) w ∅) as [w1 [acc|err]]; [done|].
  intros [= <- <-]. right.
  destruct Htrace as (_ & _ & _ & _ & url & ? & ? & _). by exists url.
Qed.


(** The saved files of an object with the flat layout and kept names. *)
Lemma flat_keep_paths_run cs w :
  _output_structure (self w) = flat →
  _output_naming (self w) = keep →
  (∀ u p, (u, p) ∈ saves (log w) →
          p = Py.path_join (_output_folderpath (self w)) (Py.last_segment u)) →
  ∀ u p, (u, p) ∈ saves (log (run_calls E cs w).1) →
         p = Py.path_join (_output_folderpath (self w)) (Py.last_segment u).
Proof.
  intros Hflat Hkeep Hw.
  set (P := λ w' : World,
    cfg (self w') = cfg (self w)
    ∧ ∀ u p, (u, p) ∈ saves (log w') →
             p = Py.path_join (_output_folderpath (self w)) (Py.last_segment u)).
  assert (P (run_calls E cs w).1) as [_ HP]; [|done].
  apply (run_calls_rule E P); [| |done].
  - intros mp w1 [Hcfg Hp]. destruct (scrape_keeps E mp w1) as (Hc' & _ & _ & _ & _ & Hs).
    unfold P. by rewrite Hc', Hs.
  - intros hm w1 HP1. apply (download_rule E P); [| |done].
    + intros w2 q [Hcfg Hp]. unfold P. simpl. rewrite saves_app. simpl.
      by rewrite app_nil_r.
    + intros w2 u [Hcfg Hp] _.
      destruct (download_image_spec E w2 u) as ((Hc' & _) & _ & Hcase).
      split; [by rewrite Hc'|].
      destruct (image_open E u) as [image|]; [|by destruct Hcase as (_ & _ & -> & _)].
      destruct Hcase as [_ Hcase].
      destruct (_ && _); [|by destruct Hcase as (_ & -> & _)].
      destruct Hcase as [_ ->].
      intros v q [Hv|Hv%list_elem_of_singleton]%elem_of_app; [by apply Hp|].
      injection Hv as -> ->. unfold image_filepath, image_filename.
      replace (_output_structure (self w2)) with flat by (by rewrite Hcfg).
      replace (_output_naming (self w2)) with keep by (by rewrite Hcfg).
      by replace (_output_folderpath (self w2)) with (_output_folderpath (self w))
        by (by rewrite Hcfg).
Qed.

(** X21. With the defaults of the command line (only [--seed] given),
    [main] fails no assertion, and every file it saves is directly in the
    folder [scraped], under the last segment of the image URL. *)
Theorem main_with_default_options s disk :
  (main E (default_args s) disk).2 ≠ Raise AssertionError
  ∧ ∀ image_url path,
      (image_url, path) ∈ saves (main E (default_args s) disk).1.2 →
      path = Py.path_join "scraped" (Py.last_segment image_url).
Proof.
  unfold main, __init__, default_args. simpl.
  set (w0 := {| self := construct E _ _ _ _ _ _ _ _ _ _; fs := disk; log := [] |}).
  pose proof (flat_keep_paths_run [Scrape _DEFAULT_MAX_PAGES; Download _DEFAULT_HOW_MANY]
                w0 eq_refl eq_refl) as Hpaths.
  pose proof (flat_keep_paths_run [Scrape _DEFAULT_MAX_PAGES] w0 eq_refl eq_refl)
    as Hpaths1.
  simpl in Hpaths, Hpaths1.
  destruct (scrape E _DEFAULT_MAX_PAGES w0) as [w1 [new|e]] eqn:Hs.
  - simpl in Hpaths.
    pose proof (download_loop_raise E (Z.to_nat _DEFAULT_HOW_MANY)
                  (if path_exists w1 (_output_folderpath (self w1)) then w1
                   else makedirs w1 (_output_folderpath (self w1)))) as Hraise.
    unfold download in *.
    destruct (download_loop E _ _) as [w2 r]. simpl in *. split.
    + intros ->. by destruct (Hraise AssertionError eq_refl) as (u & ? & _).
    + apply Hpaths. by intros u p Hu%elem_of_nil.
  - simpl in *. split.
    + intros [= ->].
      destruct (scrape_raise_cases _ _ _ _ Hs) as [(_ & Hlt & _)|(url & ? & _)]; [|done].
      unfold _DEFAULT_MAX_PAGES in Hlt. lia.
    + apply Hpaths1. by intros u p Hu%elem_of_nil.
Qed.

End Program.

(** ** The further properties on concrete sites *)

Lemma scrape_on_empty_frontier_witness :
  scrape Demo.loop_env 3 (scrape Demo.loop_env 2 Demo.loop_start).1
  = ((scrape Demo.loop_env 2 Demo.loop_start).1, Ok ∅).
Proof.
  apply (scrape_on_empty_frontier Demo.loop_env 3 (scrape Demo.loop_env 2 Demo.loop_start).1).
  - lia.
  - vm_compute. reflexivity.
Defined.



Lemma download_opens_only_discovered_images_witness :
  (∀ image_url,
     image_url ∈ opens (log (run_calls Demo.small_env [Scrape 2; Download 2]
                               (fresh (self Demo.small_start) ∅)).1) →
     image_url ∈ _images_urls (self (run_calls Demo.small_env [Scrape 2; Download 2]
                                       (fresh (self Demo.small_start) ∅)).1))
  ∧ _downloaded (self (run_calls Demo.small_env [Scrape 2; Download 2]
                         (fresh (self Demo.small_start) ∅)).1)
    ⊆ _images_urls (self (run_calls Demo.small_env [Scrape 2; Download 2]
                            (fresh (self Demo.small_start) ∅)).1).
Proof.
  apply (download_opens_only_discovered_images Demo.small_env (self Demo.small_start) ∅
           [Scrape 2; Download 2]).
  demo_constructed.
Defined.

Lemma images_saved_at_most_once_witness :
  NoDup (saves (log (run_calls Demo.small_env [Scrape 2; Download 5]
                      (fresh (self Demo.small_start) ∅)).1)).*1
  ∧ _downloaded_idx (self (run_calls Demo.small_env [Scrape 2; Download 5]
                             (fresh (self Demo.small_start) ∅)).1)
    = 1 + Z.of_nat (length (saves (log (run_calls Demo.small_env [Scrape 2; Download 5]
                                          (fresh (self Demo.small_start) ∅)).1)))
  ∧ (length (saves (log (run_calls Demo.small_env [Scrape 2; Download 5]
                           (fresh (self Demo.small_start) ∅)).1))
     ≤ size (_downloaded (self (run_calls Demo.small_env [Scrape 2; Download 5]
                                  (fresh (self Demo.small_start) ∅)).1)))%nat.
Proof.
  apply (images_saved_at_most_once Demo.small_env (self Demo.small_start) ∅
           [Scrape 2; Download 5]).
  demo_constructed.
Defined.

Lemma fetched_pages_stay_on_site_witness :
  netloc (urlparse Demo.tree_env "http://a.com/p3")
  = netloc (urlparse Demo.tree_env (_seed (self Demo.tree_start)))
  ∧ reach Demo.tree_env (self Demo.tree_start) "http://a.com/p3".
Proof.
  apply (fetched_pages_stay_on_site Demo.tree_env (self Demo.tree_start) ∅ [Scrape 3]).
  - demo_constructed.
  - compute_done.
Defined.

Lemma discovered_images_come_from_matching_pages_witness :
  re_search Demo.small_env (_regex_images (self Demo.small_start)) "http://cdn.com/i3.jpg"
  = true
  ∧ ∃ page soup,
      page ∈ gets (log (run_calls Demo.small_env [Scrape 2]
                          (fresh (self Demo.small_start) ∅)).1)
      ∧ requests_get Demo.small_env page = Some soup
      ∧ re_search Demo.small_env (_regex_pages (self Demo.small_start)) page = true
      ∧ "http://cdn.com/i3.jpg"%string
        ∈ _extract_images_urls Demo.small_env (self Demo.small_start) soup.
Proof.
  apply (discovered_images_come_from_matching_pages Demo.small_env
           (self Demo.small_start) ∅ [Scrape 2]).
  - demo_constructed.
  - compute_done.
Defined.

Lemma crawl_loses_no_page_witness :
  let w := (run_calls Demo.tree_env [Scrape 2; Scrape 1] (fresh (self Demo.tree_start) ∅)).1 in
  _seed (self Demo.tree_start) ∈ _explored (self w) ∪ _unexplored (self w)
  ∧ (∀ url, url ∈ _explored (self w) →
            links Demo.tree_env (self Demo.tree_start) url
            ⊆ _explored (self w) ∪ _unexplored (self w))
  ∧ (_unexplored (self w) = ∅ →
     ∀ url, url ∈ _explored (self w) ↔ reach Demo.tree_env (self Demo.tree_start) url).
Proof.
  apply (crawl_loses_no_page Demo.tree_env (self Demo.tree_start) ∅ [Scrape 2; Scrape 1]
           _ (run_calls Demo.tree_env [Scrape 2; Scrape 1]
                (fresh (self Demo.tree_start) ∅)).2).
  - demo_constructed.
  - apply surjective_pairing.
  - vm_compute. repeat constructor.
Defined.

Lemma kept_names_are_last_segments_witness :
  Py.last_segment "scraped/bar.png" = Py.last_segment "http://a.com/foo/bar.png".
Proof.
  apply (kept_names_are_last_segments
           (Demo.env {[ "http://a.com/"%string := [Demo.img "/foo/bar.png"] ]}
              {[ "http://a.com/foo/bar.png"%string := {| width := 3; height := 2 |} ]})
           (self (Demo.start
                    (Demo.env {[ "http://a.com/"%string := [Demo.img "/foo/bar.png"] ]}
                       {[ "http://a.com/foo/bar.png"%string := {| width := 3; height := 2 |} ]})
                    "http://a.com/" 0 0 flat keep))
           ∅ [Scrape 1; Download 1]).
  - demo_constructed.
  - reflexivity.
  - compute_done.
Defined.

Lemma numerical_names_never_collide_witness :
  NoDup (saves (log (run_calls Demo.small_env [Scrape 2; Download 5]
                      (fresh (self Demo.small_start) ∅)).1)).*2.
Proof.
  apply (numerical_names_never_collide Demo.small_env (self Demo.small_start) ∅
           [Scrape 2; Download 5]).
  - demo_constructed.
  - reflexivity.
Defined.

